(** * LogicFlow engine: the Scheduler (dispatcher) and the Recorder

    A shallow embedding of [Scheduler] (the engine's dispatcher) and of
    [recorder/index.ts].  JavaScript [Map]s are finite maps, arrays are
    lists, and every synchronous block of a method (the code between two
    [await]s) is one state transformer.  Calls that leave the dispatcher
    (the event channel, the node provider, the recorder) are appended to a
    log kept in the state, oldest first. *)

From stdpp Require Import base option list strings gmap fin_maps.
From Stdlib Require Import ZArith.

Open Scope string_scope.
Open Scope list_scope.

(** ** Data model *)

(** Node-defined content ([properties], [detail], resume input) is opaque to
    the dispatcher; it is carried as serialised text. *)
Definition Payload : Type := string.

(** Modelled from the spec: [constant/constant] is not among the sources.
    [FlowStatus] carries the two outcomes the spec lists for a result. *)
Inductive FlowStatus : Type :=
| COMPLETED
| INTERRUPTED.

#[global] Instance FlowStatus_eq_dec : EqDecision FlowStatus.
Proof. solve_decision. Defined.

(** [NodeParam]: a ready node, [{executionId, nodeId}]. *)
Record NodeParam : Type := mkNodeParam {
  np_executionId : string;
  np_nodeId : string;
}.

(** [TaskParam]: a launched task, [{executionId, nodeId, taskId}]. *)
Record TaskParam : Type := mkTaskParam {
  tp_executionId : string;
  tp_nodeId : string;
  tp_taskId : string;
}.

(** An outgoing edge; only [target] is read by the dispatcher. *)
Record OutgoingConfig : Type := mkOutgoing {
  target : string;
}.

(** [ActionResult]: what [execute] and [resume] of a node return. *)
Record ActionResult : Type := mkActionResult {
  ar_status : FlowStatus;
  ar_nodeType : string;
  ar_properties : option Payload;
  ar_outgoing : list OutgoingConfig;
  ar_detail : option Payload;
}.

(** [NextTaskParam]: the argument of the continuation [next]. *)
Record NextTaskParam : Type := mkNext {
  nt_executionId : string;
  nt_nodeId : string;
  nt_taskId : string;
  nt_nodeType : string;
  nt_outgoing : list OutgoingConfig;
  nt_properties : option Payload;
}.

(** The [extraInfo] object built by [exec]: [{status, detail}]. *)
Record ExtraInfo : Type := mkExtraInfo {
  ei_status : FlowStatus;
  ei_detail : option Payload;
}.

(** [TaskResult = { extraInfo?: ... } & NextTaskParam]. *)
Record TaskResult : Type := mkTaskResult {
  tr_base : NextTaskParam;
  tr_extraInfo : option ExtraInfo;
}.

(** The record handed to [Recorder.addTask].  Its shape is the persisted
    record of the spec, [{executionId, taskId, nodeId, nodeType, timestamp,
    properties, extraInfo?}]; an absent key is [None]. *)
Record RecorderData : Type := mkRecorderData {
  rd_executionId : string;
  rd_taskId : string;
  rd_nodeId : string;
  rd_nodeType : string;
  rd_timestamp : Z;
  rd_properties : option Payload;
  rd_extraInfo : option ExtraInfo;
}.

(** Parameter of [run]: [{executionId, nodeId?, taskId?}]. *)
Record RunParams : Type := mkRunParams {
  rp_executionId : string;
  rp_nodeId : option string;
  rp_taskId : option string;
}.

(** [ResumeParam]: [{executionId, nodeId, taskId, data?}]. *)
Record ResumeParam : Type := mkResumeParam {
  rs_executionId : string;
  rs_nodeId : string;
  rs_taskId : string;
  rs_data : option Payload;
}.

(** Payload of the instance-complete event. *)
Record CompletePayload : Type := mkComplete {
  cp_executionId : string;
  cp_nodeId : option string;
  cp_taskId : option string;
  cp_status : FlowStatus;
}.

(** Payload of the instance-interrupted event. *)
Record InterruptedPayload : Type := mkInterrupted {
  ip_executionId : string;
  ip_status : FlowStatus;
  ip_nodeId : string;
  ip_taskId : string;
  ip_detail : option Payload;
}.

Inductive Event : Type :=
| EVENT_INSTANCE_COMPLETE (p : CompletePayload)
| EVENT_INSTANCE_INTERRUPTED (p : InterruptedPayload).

(** The context passed to [model.execute]: [{executionId, taskId, nodeId,
    next}], where [next] is always the dispatcher's own continuation. *)
Record ExecuteParam : Type := mkExecuteParam {
  ex_executionId : string;
  ex_taskId : string;
  ex_nodeId : string;
}.

(** Calls leaving the dispatcher. *)
Inductive Call : Type :=
| Emit (ev : Event)
| CreateTask (nodeId : string)
| ModelExecute (ctx : ExecuteParam)
| ModelResume (ctx : ResumeParam)
| RecorderAddTask (r : RecorderData).

(** A [NextTaskParam] is used where a [TaskParam] is expected (structural
    subtyping in the source). *)
Definition asTaskParam (data : NextTaskParam) : TaskParam :=
  mkTaskParam (nt_executionId data) (nt_nodeId data) (nt_taskId data).

(** JavaScript truthiness of a string: only the empty string is falsy. *)
Definition truthy (s : string) : bool :=
  match s with
  | EmptyString => false
  | String _ _ => true
  end.

(** ** The Scheduler *)

Module Scheduler.

Abbreviation TaskParamMap := (gmap string TaskParam).

(** The dispatcher object together with the part of the world it talks to:
    [minted] counts the calls of [createTaskId], [now] is the reading of
    [Date.now()], [calls] is the log of outgoing calls.

    Modelled from the spec: [FlowModel] is not among the sources.  The field
    [flowModel] keeps what the dispatcher depends on: [flowModel w n] tells
    whether [flowModel.createTask(n)] returns a node model; for a node id
    the model does not know, [createTask] throws. *)
Record state : Type := mkState {
  nodeQueueMap : gmap string (list NodeParam);
  taskRunningMap : gmap string TaskParamMap;
  flowModel : string → bool;
  currentTask : option TaskParam;
  minted : nat;
  now : Z;
  calls : list Call;
}.

Definition with_nodeQueueMap (m : gmap string (list NodeParam)) (w : state) : state :=
  mkState m (taskRunningMap w) (flowModel w) (currentTask w) (minted w) (now w) (calls w).

Definition with_taskRunningMap (m : gmap string TaskParamMap) (w : state) : state :=
  mkState (nodeQueueMap w) m (flowModel w) (currentTask w) (minted w) (now w) (calls w).

Definition with_minted (n : nat) (w : state) : state :=
  mkState (nodeQueueMap w) (taskRunningMap w) (flowModel w) (currentTask w) n (now w)
          (calls w).

Definition call (c : Call) (w : state) : state :=
  mkState (nodeQueueMap w) (taskRunningMap w) (flowModel w) (currentTask w) (minted w)
          (now w) (calls w ++ [c]).

(** [constructor]: both maps empty, the flow model of the configuration,
    no current task. *)
Definition new (model : string → bool) (t0 : Z) : state :=
  mkState ∅ ∅ model None 0 t0 [].

(** The ready queue and the running registry of one instance, an absent
    entry read as empty. *)
Definition queue_of (w : state) (executionId : string) : list NodeParam :=
  default [] (nodeQueueMap w !! executionId).

Definition running_of (w : state) (executionId : string) : TaskParamMap :=
  default ∅ (taskRunningMap w !! executionId).

(** Readings of the call log: the calls made since an earlier state, the
    records handed to the recorder, the nodes whose [execute] was started,
    and the events emitted. *)
Definition new_calls (before after : state) : list Call :=
  drop (length (calls before)) (calls after).

Definition recorded (cs : list Call) : list RecorderData :=
  omap (λ c, match c with RecorderAddTask r => Some r | _ => None end) cs.

Definition launched (cs : list Call) : list NodeParam :=
  omap (λ c, match c with
             | ModelExecute ctx => Some (mkNodeParam (ex_executionId ctx) (ex_nodeId ctx))
             | _ => None
             end) cs.

Definition emitted (cs : list Call) : list Event :=
  omap (λ c, match c with Emit ev => Some ev | _ => None end) cs.

Definition completions (cs : list Call) : list CompletePayload :=
  omap (λ c, match c with Emit (EVENT_INSTANCE_COMPLETE p) => Some p | _ => None end) cs.

Definition interruptions (cs : list Call) : list InterruptedPayload :=
  omap (λ c, match c with Emit (EVENT_INSTANCE_INTERRUPTED p) => Some p | _ => None end) cs.

Section WithIds.

(** [util/ID] is not among the sources: [createTaskId k] is the identifier
    returned by the [k]-th call of [createTaskId()]. *)
Variable createTaskId : nat → string.

Definition addTask (nodeParam : NodeParam) (w : state) : state :=
  let executionId := np_executionId nodeParam in
  let w1 :=
    if bool_decide (is_Some (nodeQueueMap w !! executionId)) then w
    else with_nodeQueueMap (<[executionId := []]> (nodeQueueMap w)) w in
  let currentTaskQueue := default [] (nodeQueueMap w1 !! executionId) in
  with_nodeQueueMap
    (<[executionId := currentTaskQueue ++ [nodeParam]]> (nodeQueueMap w1)) w1.

Definition getNextNode (executionId : string) (w : state) : option NodeParam * state :=
  match nodeQueueMap w !! executionId with
  | None => (None, w)
  | Some [] => (None, w)
  | Some (currentTask :: rest) =>
      (Some currentTask, with_nodeQueueMap (<[executionId := rest]> (nodeQueueMap w)) w)
  end.

Definition pushTaskToRunningMap (taskParam : TaskParam) (w : state) : state :=
  let executionId := tp_executionId taskParam in
  let taskId := tp_taskId taskParam in
  let w1 :=
    if bool_decide (is_Some (taskRunningMap w !! executionId)) then w
    else with_taskRunningMap (<[executionId := ∅]> (taskRunningMap w)) w in
  let runningMap := default ∅ (taskRunningMap w1 !! executionId) in
  with_taskRunningMap
    (<[executionId := <[taskId := taskParam]> runningMap]> (taskRunningMap w1)) w1.

Definition removeTaskFromRunningMap (taskParam : TaskParam) (w : state) : state :=
  let executionId := tp_executionId taskParam in
  let taskId := tp_taskId taskParam in
  if negb (truthy taskId) then w
  else
    match taskRunningMap w !! executionId with
    | None => w
    | Some runningMap =>
        with_taskRunningMap
          (<[executionId := delete taskId runningMap]> (taskRunningMap w)) w
    end.

Definition hasRunningTask (executionId : string) (w : state) : bool * state :=
  match taskRunningMap w !! executionId with
  | None => (false, w)
  | Some runningMap =>
      if bool_decide (size runningMap = 0)
      then (false, with_taskRunningMap (delete executionId (taskRunningMap w)) w)
      else (true, w)
  end.

Definition emit (ev : Event) (w : state) : state := call (Emit ev) w.

(** [exec], up to its [await]: the node model is created and its [execute]
    is started.  There is no [try]: when [createTask] throws, the method
    ends there and [execute] is never called. *)
Definition exec (taskParam : TaskParam) (w : state) : state :=
  let w1 := call (CreateTask (tp_nodeId taskParam)) w in
  if flowModel w (tp_nodeId taskParam) then
    call (ModelExecute
            (mkExecuteParam (tp_executionId taskParam) (tp_taskId taskParam)
                            (tp_nodeId taskParam))) w1
  else w1.

Definition interrupted (execResult : ActionResult) (taskParam : TaskParam)
    (w : state) : state :=
  emit (EVENT_INSTANCE_INTERRUPTED
          (mkInterrupted (tp_executionId taskParam) INTERRUPTED
                         (tp_nodeId taskParam) (tp_taskId taskParam)
                         (ar_detail execResult))) w.

(** The object literal passed to the recorder has six keys; [extraInfo] is
    not among them. *)
Definition saveTaskResult (data : TaskResult) (w : state) : state :=
  call (RecorderAddTask
          (mkRecorderData (nt_executionId (tr_base data)) (nt_taskId (tr_base data))
                          (nt_nodeId (tr_base data)) (nt_nodeType (tr_base data))
                          (now w) (nt_properties (tr_base data)) None)) w.

(** [exec], after its [await]: [execResult] is what [execute] resolved to
    ([None] when it resolved to nothing). *)
Definition exec_settled (taskParam : TaskParam) (execResult : option ActionResult)
    (w : state) : state :=
  match execResult with
  | Some r =>
      if bool_decide (ar_status r = INTERRUPTED) then
        let w1 := interrupted r taskParam w in
        let w2 :=
          saveTaskResult
            (mkTaskResult
               (mkNext (tp_executionId taskParam) (tp_nodeId taskParam)
                       (tp_taskId taskParam) (ar_nodeType r) [] (ar_properties r))
               (Some (mkExtraInfo (ar_status r) (ar_detail r)))) w1 in
        removeTaskFromRunningMap taskParam w2
      else w
  | None => w
  end.

Definition run (runParams : RunParams) (w : state) : state :=
  let executionId := rp_executionId runParams in
  match getNextNode executionId w with
  | (Some currentNode, w1) =>
      let taskId := createTaskId (minted w1) in
      let w2 := with_minted (S (minted w1)) w1 in
      let taskParam :=
        mkTaskParam (np_executionId currentNode) (np_nodeId currentNode) taskId in
      exec taskParam (pushTaskToRunningMap taskParam w2)
  | (None, w1) =>
      match hasRunningTask executionId w1 with
      | (true, w2) => w2
      | (false, w2) =>
          emit (EVENT_INSTANCE_COMPLETE
                  (mkComplete executionId (rp_nodeId runParams)
                              (rp_taskId runParams) COMPLETED)) w2
      end
  end.

(** [resume], up to its [await].  As in [exec], a throwing [createTask]
    ends the method before [model.resume] is called. *)
Definition resume (resumeParam : ResumeParam) (w : state) : state :=
  let w1 :=
    pushTaskToRunningMap
      (mkTaskParam (rs_executionId resumeParam) (rs_nodeId resumeParam)
                   (rs_taskId resumeParam)) w in
  let w2 := call (CreateTask (rs_nodeId resumeParam)) w1 in
  if flowModel w (rs_nodeId resumeParam) then call (ModelResume resumeParam) w2
  else w2.

(** [resume], after its [await]: the method ends; the value [model.resume]
    resolved to is dropped. *)
Definition resume_settled (resumeParam : ResumeParam)
    (result : option ActionResult) (w : state) : state := w.

(** The [forEach] of [next]: one [addTask] per outgoing edge, in order. *)
Definition enqueueOutgoing (executionId : string) (outgoing : list OutgoingConfig)
    (w : state) : state :=
  foldl (λ acc item, addTask (mkNodeParam executionId (target item)) acc) w outgoing.

Definition next (data : NextTaskParam) (w : state) : state :=
  let w1 := enqueueOutgoing (nt_executionId data) (nt_outgoing data) w in
  let w2 := saveTaskResult (mkTaskResult data None) w1 in
  let w3 := removeTaskFromRunningMap (asTaskParam data) w2 in
  run (mkRunParams (nt_executionId data) (Some (nt_nodeId data))
                   (Some (nt_taskId data))) w3.

(** Everything that can happen to the dispatcher: a call of one of its
    public methods, a call of the continuation it handed to a node, the
    settlement of a promise it awaits, or the clock moving on.  Node code
    is only ever entered as the last action of a synchronous block, so a
    re-entrant call is the same as the next input. *)
Inductive input : Type :=
| CallAddTask (nodeParam : NodeParam)
| CallRun (runParams : RunParams)
| CallResume (resumeParam : ResumeParam)
| CallNext (data : NextTaskParam)
| ExecSettled (taskParam : TaskParam) (execResult : option ActionResult)
| ResumeSettled (resumeParam : ResumeParam) (result : option ActionResult)
| Tick (t : Z).

Definition step (i : input) (w : state) : state :=
  match i with
  | CallAddTask nodeParam => addTask nodeParam w
  | CallRun runParams => run runParams w
  | CallResume resumeParam => resume resumeParam w
  | CallNext data => next data w
  | ExecSettled taskParam execResult => exec_settled taskParam execResult w
  | ResumeSettled resumeParam result => resume_settled resumeParam result w
  | Tick t =>
      mkState (nodeQueueMap w) (taskRunningMap w) (flowModel w) (currentTask w) (minted w)
              t (calls w)
  end.

Definition steps (inputs : list input) (w : state) : state :=
  foldl (λ acc i, step i acc) w inputs.

End WithIds.

(** ** Derived notions used in the statements *)

(** The calls made by one [run]. *)
Definition run_calls (cid : nat → string) (rp : RunParams) (w : state) : list Call :=
  match queue_of w (rp_executionId rp) with
  | np :: _ =>
      CreateTask (np_nodeId np)
      :: (if flowModel w (np_nodeId np)
          then [ModelExecute
                  (mkExecuteParam (np_executionId np) (cid (minted w)) (np_nodeId np))]
          else [])
  | [] =>
      if bool_decide (running_of w (rp_executionId rp) = ∅)
      then [Emit (EVENT_INSTANCE_COMPLETE
                    (mkComplete (rp_executionId rp) (rp_nodeId rp) (rp_taskId rp)
                                COMPLETED))]
      else []
  end.

(** [run] emits the instance-complete event. *)
Definition emits_complete (cid : nat → string) (rp : RunParams) (w : state) : Prop :=
  completions (new_calls w (run cid rp w)) ≠ [].

(** The inputs that put a node in the ready queue of instance [e]: an
    [addTask] for it, or a continuation for it with an outgoing edge. *)
Definition enqueues_for (e : string) (i : input) : bool :=
  match i with
  | CallAddTask np => bool_decide (np_executionId np = e)
  | CallNext data =>
      bool_decide (nt_executionId data = e) && negb (bool_decide (nt_outgoing data = []))
  | _ => false
  end.

(** The record [exec] asks [saveTaskResult] to persist for an interrupted
    task, as [saveTaskResult] hands it to the recorder. *)
Definition interruptionRecord (tp : TaskParam) (r : ActionResult) (t : Z) : RecorderData :=
  mkRecorderData (tp_executionId tp) (tp_taskId tp) (tp_nodeId tp) (ar_nodeType r) t
                 (ar_properties r) None.

Definition interruptionEvent (tp : TaskParam) (r : ActionResult) : InterruptedPayload :=
  mkInterrupted (tp_executionId tp) INTERRUPTED (tp_nodeId tp) (tp_taskId tp)
                (ar_detail r).

End Scheduler.

(** ** The Recorder *)

Module Recorder.

(** Modelled from the spec: [util/storage] is not among the sources.  The
    persistence backend is a key-value store; [getItem] of a key that was
    never set, or was removed, yields nothing.  The values the recorder
    stores are lists of identifiers and task records. *)
Inductive item : Type :=
| ItemList (ids : list string)
| ItemTask (task : RecorderData).

Abbreviation storage := (gmap string item).

Definition getItem (key : string) (s : storage) : option item := s !! key.
Definition setItem (key : string) (value : item) (s : storage) : storage := <[key := value]> s.
Definition removeItem (key : string) (s : storage) : storage := delete key s.

Definition LOGICFLOW_ENGINE_INSTANCES : string := "LOGICFLOW_ENGINE_INSTANCES".

(** [x || []] followed by an array method: a stored list is kept (an empty
    array is truthy), nothing reads as the empty list, and a task record has
    neither [push] nor [forEach], so the method call throws ([None]). *)
Definition orEmpty (o : option item) : option (list string) :=
  match o with
  | None => Some []
  | Some (ItemList ids) => Some ids
  | Some (ItemTask _) => None
  end.

Definition getTask (taskId : string) (s : storage) : option item := getItem taskId s.

Definition getExecutionTasks (executionId : string) (s : storage) : option item :=
  getItem executionId s.

(** [addTask] after its [await]: [instanceData] is what [getExecutionTasks]
    resolved to.  A [TypeError] ([None]) can only be raised before the first
    write. *)
Definition addTask_settled (task : RecorderData) (instanceData : option item)
    (s : storage) : option storage :=
  let executionId := rd_executionId task in
  let taskId := rd_taskId task in
  match instanceData with
  | None =>
      instance ← orEmpty (getItem LOGICFLOW_ENGINE_INSTANCES s);
      let s1 := setItem LOGICFLOW_ENGINE_INSTANCES (ItemList (instance ++ [executionId])) s in
      Some (setItem taskId (ItemTask task) (setItem executionId (ItemList ([] ++ [taskId])) s1))
  | Some (ItemList ids) =>
      Some (setItem taskId (ItemTask task) (setItem executionId (ItemList (ids ++ [taskId])) s))
  | Some (ItemTask _) => None
  end.

(** [addTask] with nothing else touching the storage during its [await]. *)
Definition addTask (task : RecorderData) (s : storage) : option storage :=
  addTask_settled task (getExecutionTasks (rd_executionId task) s) s.

(** One round of the outer [forEach] of [clear]: the index is removed
    first, and read back afterwards. *)
Definition clearInstance (executionId : string) (s : storage) : option storage :=
  let s1 := removeItem executionId s in
  instanceData ← orEmpty (getItem executionId s1);
  Some (foldl (λ acc taskId, removeItem taskId acc) s1 instanceData).

Definition clear (s : storage) : option storage :=
  instance ← orEmpty (getItem LOGICFLOW_ENGINE_INSTANCES s);
  s1 ← foldl (λ acc executionId, acc ≫= clearInstance executionId) (Some s) instance;
  Some (removeItem LOGICFLOW_ENGINE_INSTANCES s1).

End Recorder.

(** ** Sample data for the closed examples *)

Module Samples.
Import Scheduler.

Definition nodeA : NodeParam := mkNodeParam "e1" "A".

(** A flow model that has every node, and one that only has node [A]. *)
Definition allNodes (nodeId : string) : bool := true.

(** Task ids as handed out in the closed examples. *)
Definition sampleIds (k : nat) : string := "task".

Definition runE1 : RunParams := mkRunParams "e1" None None.

(** A flow of one node, run to completion. *)
Definition oneNodeFlow : list input :=
  [ CallAddTask nodeA;
    CallRun runE1;
    CallNext (mkNext "e1" "A" "task" "start" [] None) ].

(** The chain A -> B -> C, each node settling before the next is launched. *)
Definition chainFlow : list input :=
  [ CallAddTask nodeA;
    CallRun runE1;
    CallNext (mkNext "e1" "A" "task" "start" [mkOutgoing "B"] None);
    CallNext (mkNext "e1" "B" "task" "step" [mkOutgoing "C"] None);
    CallNext (mkNext "e1" "C" "task" "end" [] None) ].

(** A node suspends and asks for a form to be filled in. *)
Definition suspended : ActionResult :=
  mkActionResult INTERRUPTED "form" None [mkOutgoing "B"] (Some "{formId: 42}").

(** A resume call that names a task with an empty id, and the continuation
    of that task. *)
Definition resumeNoId : ResumeParam := mkResumeParam "e1" "A" EmptyString None.
Definition settleNoId : NextTaskParam := mkNext "e1" "A" EmptyString "form" [] None.

Definition resumeTask : ResumeParam :=
  mkResumeParam "e1" "A" "task" (Some "{approved: true}").

(** The record of one settled task. *)
Definition taskRecord : RecorderData :=
  mkRecorderData "e1" "task" "A" "start" 0 None None.

End Samples.

(** ** Histories of the dispatcher and of the recorder *)

Module History.
Import Scheduler.

(** Key discipline of the two maps: a queued node sits in the queue of its
    own instance, a registered task sits in the registry of its own
    instance under its own task id. *)
Definition queues_consistent (w : state) : Prop :=
  ∀ e np, np ∈ queue_of w e → np_executionId np = e.

Definition registry_consistent (w : state) : Prop :=
  ∀ e t tp, running_of w e !! t = Some tp → tp_executionId tp = e ∧ tp_taskId tp = t.

(** The nodes one input puts in the ready queue of instance [e], in order. *)
Definition enqueued_by (e : string) (i : input) : list NodeParam :=
  match i with
  | CallAddTask np => if bool_decide (np_executionId np = e) then [np] else []
  | CallNext data =>
      if bool_decide (nt_executionId data = e)
      then map (λ item, mkNodeParam e (target item)) (nt_outgoing data)
      else []
  | _ => []
  end.

Definition enqueued (e : string) (inputs : list input) : list NodeParam :=
  concat (map (enqueued_by e) inputs).

(** The node ids [createTask] was called with, in call order. *)
Definition created (cs : list Call) : list string :=
  omap (λ c, match c with CreateTask n => Some n | _ => None end) cs.

(** Those of a list of nodes that the flow model of the dispatcher has. *)
Definition known_nodes (w : state) (nodes : list NodeParam) : list NodeParam :=
  List.filter (λ np, flowModel w (np_nodeId np)) nodes.

(** The started nodes of one instance, in starting order. *)
Definition launched_for (e : string) (cs : list Call) : list NodeParam :=
  filter (λ np, np_executionId np = e) (launched cs).

(** The instance an input is addressed to. *)
Definition instance_of (i : input) : option string :=
  match i with
  | CallAddTask np => Some (np_executionId np)
  | CallRun rp => Some (rp_executionId rp)
  | CallResume rs => Some (rs_executionId rs)
  | CallNext data => Some (nt_executionId data)
  | ExecSettled tp _ => Some (tp_executionId tp)
  | ResumeSettled rs _ => Some (rs_executionId rs)
  | Tick _ => None
  end.

(** Recording several tasks one after the other, each [addTask] awaited
    before the next is called. *)
Definition addTasks (tasks : list RecorderData) (s : Recorder.storage)
    : option Recorder.storage :=
  foldl (λ acc task, acc ≫= Recorder.addTask task) (Some s) tasks.

(** Two [addTask] calls made without awaiting the first: both read the
    index of their instance before either writes. *)
Definition addTask_overlapped (task1 task2 : RecorderData) (s : Recorder.storage)
    : option Recorder.storage :=
  let read1 := Recorder.getExecutionTasks (rd_executionId task1) s in
  let read2 := Recorder.getExecutionTasks (rd_executionId task2) s in
  Recorder.addTask_settled task1 read1 s ≫= Recorder.addTask_settled task2 read2.

(** Tasks of instance [e] whose ids differ from [e]. *)
Definition tasks_of (e : string) (tasks : list RecorderData) : Prop :=
  Forall (λ task, rd_executionId task = e ∧ rd_taskId task ≠ e) tasks.

End History.


(** More sample data. *)
Module MoreSamples.
Import Scheduler.

Definition nodeB : NodeParam := mkNodeParam "e1" "B".
Definition runE2 : RunParams := mkRunParams "e2" None None.
Definition taskA : TaskParam := mkTaskParam "e1" "A" "task".

Definition recordB : RecorderData :=
  mkRecorderData "e1" "task2" "B" "step" 1 None None.

(** A record whose execution id is the task id of [Samples.taskRecord]. *)
Definition recordClash : RecorderData :=
  mkRecorderData "task" "task3" "C" "step" 2 None None.

(** The storage after [Samples.taskRecord] has been recorded, and after it
    has then been cleared. *)
Definition storedOne : Recorder.storage :=
  <["task" := Recorder.ItemTask Samples.taskRecord]>
    (<["e1" := Recorder.ItemList ["task"]]>
       (<[Recorder.LOGICFLOW_ENGINE_INSTANCES := Recorder.ItemList ["e1"]]> ∅)).

Definition clearedOne : Recorder.storage :=
  <["task" := Recorder.ItemTask Samples.taskRecord]> ∅.



End MoreSamples.

(** * Properties *)

Lemma truthy_true (s : string) : truthy s = true ↔ s ≠ EmptyString.
Proof. destruct s; simpl; split; intros; congruence. Qed.

Lemma truthy_false (s : string) : truthy s = false ↔ s = EmptyString.
Proof. destruct s; simpl; split; intros; congruence. Qed.

Module RecorderFacts.
Import Recorder Samples.

Lemma clearInstance_unfold (executionId : string) (s : storage) :
  clearInstance executionId s = Some (delete executionId s).
Proof.
  unfold clearInstance, getItem, removeItem.
  by rewrite lookup_delete_eq.
Qed.

Lemma clear_rounds (instance : list string) (s : storage) :
  foldl (λ acc executionId, acc ≫= clearInstance executionId) (Some s) instance
  = Some (foldl (λ acc executionId, delete executionId acc) s instance).
Proof.
  revert s. induction instance as [|e l IH]; intros s; simpl; [done|].
  rewrite clearInstance_unfold. apply IH.
Qed.

(** What [clear] removes: the instance list and the index of every instance
    in it, nothing else. *)
Lemma clear_unfold (instance : list string) (s : storage) :
  orEmpty (getItem LOGICFLOW_ENGINE_INSTANCES s) = Some instance →
  clear s
  = Some (delete LOGICFLOW_ENGINE_INSTANCES
            (foldl (λ acc executionId, delete executionId acc) s instance)).
Proof.
  intros Hi. unfold clear. rewrite Hi. simpl. by rewrite clear_rounds.
Qed.

Lemma lookup_delete_all (keys : list string) (s : storage) (k : string) :
  k ∉ keys → foldl (λ acc key, delete key acc) s keys !! k = s !! k.
Proof.
  revert s. induction keys as [|key keys IH]; intros s Hk; simpl; [done|].
  apply not_elem_of_cons in Hk as [Hne Hk].
  rewrite IH by done. by rewrite lookup_delete_ne.
Qed.

Lemma clear_keeps (instance : list string) (s s' : storage) (k : string) :
  orEmpty (getItem LOGICFLOW_ENGINE_INSTANCES s) = Some instance →
  clear s = Some s' →
  k ≠ LOGICFLOW_ENGINE_INSTANCES → k ∉ instance →
  s' !! k = s !! k.
Proof.
  intros Hi Hc Hk Hn. rewrite (clear_unfold _ _ Hi) in Hc.
  injection Hc as <-. rewrite lookup_delete_ne by done.
  by apply lookup_delete_all.
Qed.

(** [addTask] stores the record it is given, as it is given, under its
    task id. *)
Lemma addTask_stores (task : RecorderData) (s s' : storage) :
  addTask task s = Some s' → getTask (rd_taskId task) s' = Some (ItemTask task).
Proof.
  unfold addTask, addTask_settled, getExecutionTasks, getTask, getItem, setItem.
  destruct (s !! rd_executionId task) as [[ids|t]|]; simpl.
  - intros [= <-]. apply lookup_insert_eq.
  - done.
  - destruct (orEmpty (s !! LOGICFLOW_ENGINE_INSTANCES)) as [instance|]; simpl; [|done].
    intros [= <-]. apply lookup_insert_eq.
Qed.

(** C8: record one task in an empty storage, then [clear].  The instance
    list and the index of the instance are gone, but the task record is
    still stored under its task id: the index is removed before it is read,
    so the inner loop of [clear] has nothing to go through.  In general
    [clear] leaves every key alone that is neither the instance list nor
    an execution id listed in it. *)
Theorem clear_leaves_task_records :
  addTask taskRecord ∅
  = Some (<["task" := ItemTask taskRecord]>
            (<["e1" := ItemList ["task"]]>
               (<[LOGICFLOW_ENGINE_INSTANCES := ItemList ["e1"]]> ∅)))
  ∧ (addTask taskRecord ∅ ≫= clear) = Some (<["task" := ItemTask taskRecord]> ∅)
  ∧ (∀ s', addTask taskRecord ∅ ≫= clear = Some s' →
           getItem LOGICFLOW_ENGINE_INSTANCES s' = None
           ∧ getExecutionTasks "e1" s' = None
           ∧ getTask "task" s' = Some (ItemTask taskRecord))
  ∧ (∀ instance s s' k,
       orEmpty (getItem LOGICFLOW_ENGINE_INSTANCES s) = Some instance →
       clear s = Some s' →
       k ≠ LOGICFLOW_ENGINE_INSTANCES → k ∉ instance →
       s' !! k = s !! k).
Proof.
  assert (H1 : addTask taskRecord ∅
               = Some (<["task" := ItemTask taskRecord]>
                         (<["e1" := ItemList ["task"]]>
                            (<[LOGICFLOW_ENGINE_INSTANCES := ItemList ["e1"]]> ∅)))).
  { reflexivity. }
  assert (H2 : (addTask taskRecord ∅ ≫= clear)
               = Some (<["task" := ItemTask taskRecord]> ∅)).
  { by vm_compute. }
  split_and!; [exact H1 | exact H2 | | exact clear_keeps].
  intros s'. rewrite H2. intros [= <-]. split_and!; by vm_compute.
Qed.

End RecorderFacts.

Module SchedulerFacts.
Import Scheduler Samples History MoreSamples.

(** ** The ready queue *)

Lemma addTask_unfold (np : NodeParam) (w : state) :
  addTask np w =
  with_nodeQueueMap
    (<[np_executionId np := queue_of w (np_executionId np) ++ [np]]> (nodeQueueMap w)) w.
Proof.
  unfold addTask, queue_of.
  case_bool_decide as Hq.
  - reflexivity.
  - apply eq_None_not_Some in Hq. rewrite Hq. simpl.
    rewrite lookup_insert_eq. simpl. unfold with_nodeQueueMap. simpl.
    by rewrite insert_insert_eq.
Qed.

Lemma queue_of_addTask (np : NodeParam) (w : state) :
  queue_of (addTask np w) (np_executionId np) = queue_of w (np_executionId np) ++ [np].
Proof.
  rewrite addTask_unfold. unfold queue_of at 1. simpl.
  by rewrite lookup_insert_eq.
Qed.

Lemma queue_of_addTask_ne (np : NodeParam) (w : state) (e : string) :
  e ≠ np_executionId np →
  nodeQueueMap (addTask np w) !! e = nodeQueueMap w !! e.
Proof.
  intros Hne. rewrite addTask_unfold. simpl. by rewrite lookup_insert_ne.
Qed.

(** C6 (as amended): [addTask] is a plain append.  It puts the node at the
    tail of the queue of its instance and changes nothing else: the queues
    of other instances, the running registry, the current task, the id
    supply, the clock and the log of outgoing calls (recorder, events) stay
    as they were.  Calling it twice enqueues the node twice. *)
Theorem addTask_appends (np : NodeParam) (w : state) :
  let e := np_executionId np in
  queue_of (addTask np w) e = queue_of w e ++ [np]
  ∧ (∀ e', e' ≠ e → nodeQueueMap (addTask np w) !! e' = nodeQueueMap w !! e')
  ∧ taskRunningMap (addTask np w) = taskRunningMap w
  ∧ currentTask (addTask np w) = currentTask w
  ∧ minted (addTask np w) = minted w
  ∧ now (addTask np w) = now w
  ∧ calls (addTask np w) = calls w
  ∧ queue_of (addTask np (addTask np w)) e = queue_of w e ++ [np; np].
Proof.
  cbv zeta. split_and!.
  - apply queue_of_addTask.
  - intros e' Hne. by apply queue_of_addTask_ne.
  - by rewrite addTask_unfold.
  - by rewrite addTask_unfold.
  - by rewrite addTask_unfold.
  - by rewrite addTask_unfold.
  - by rewrite addTask_unfold.
  - rewrite !queue_of_addTask. by rewrite <- app_assoc.
Qed.

(** C6 (as stated) fails: a second [addTask] with the same argument does
    change the state, the queue holds the node twice. *)
Lemma addTask_not_idempotent :
  addTask nodeA (addTask nodeA (new allNodes 0)) ≠ addTask nodeA (new allNodes 0)
  ∧ queue_of (addTask nodeA (addTask nodeA (new allNodes 0))) "e1" = [nodeA; nodeA]
  ∧ queue_of (addTask nodeA (new allNodes 0)) "e1" = [nodeA].
Proof.
  assert (H2 : queue_of (addTask nodeA (addTask nodeA (new allNodes 0))) "e1" = [nodeA; nodeA]).
  { rewrite (queue_of_addTask nodeA). rewrite (queue_of_addTask nodeA). reflexivity. }
  assert (H1 : queue_of (addTask nodeA (new allNodes 0)) "e1" = [nodeA]).
  { rewrite (queue_of_addTask nodeA). reflexivity. }
  split_and!; [|done|done].
  intros Heq. rewrite Heq in H2. rewrite H1 in H2. discriminate.
Qed.

(** ** Launching *)

Lemma new_calls_app (w w' : state) (cs : list Call) :
  calls w' = calls w ++ cs → new_calls w w' = cs.
Proof. intros H. unfold new_calls. rewrite H. apply drop_app_length. Qed.

Lemma state_eta (w : state) :
  mkState (nodeQueueMap w) (taskRunningMap w) (flowModel w) (currentTask w) (minted w)
          (now w) (calls w) = w.
Proof. by destruct w. Qed.

Lemma queue_of_nil (w : state) (e : string) :
  queue_of w e = [] ↔ nodeQueueMap w !! e = None ∨ nodeQueueMap w !! e = Some [].
Proof.
  unfold queue_of. destruct (nodeQueueMap w !! e) as [q|]; simpl.
  - split; [intros ->; by right | intros [?|?]; congruence].
  - split; [by left | done].
Qed.

Lemma running_of_empty (w : state) (e : string) :
  running_of w e = ∅ ↔ taskRunningMap w !! e = None ∨ taskRunningMap w !! e = Some ∅.
Proof.
  unfold running_of. destruct (taskRunningMap w !! e) as [m|]; simpl.
  - split; [intros ->; by right | intros [?|?]; congruence].
  - split; [by left | done].
Qed.

Lemma getNextNode_nil (w : state) (e : string) :
  queue_of w e = [] → getNextNode e w = (None, w).
Proof.
  intros [H|H]%queue_of_nil; unfold getNextNode; by rewrite H.
Qed.

Lemma getNextNode_cons (w : state) (e : string) (np : NodeParam) (rest : list NodeParam) :
  queue_of w e = np :: rest →
  getNextNode e w = (Some np, with_nodeQueueMap (<[e := rest]> (nodeQueueMap w)) w).
Proof.
  unfold queue_of, getNextNode.
  destruct (nodeQueueMap w !! e) as [q|]; simpl; [|done].
  by intros ->.
Qed.

Lemma hasRunningTask_empty (w : state) (e : string) :
  running_of w e = ∅ →
  hasRunningTask e w = (false, with_taskRunningMap (delete e (taskRunningMap w)) w).
Proof.
  intros [H|H]%running_of_empty; unfold hasRunningTask; rewrite H.
  - rewrite delete_id by done. unfold with_taskRunningMap. by rewrite state_eta.
  - by rewrite bool_decide_eq_true_2 by apply map_size_empty.
Qed.

Lemma hasRunningTask_busy (w : state) (e : string) :
  running_of w e ≠ ∅ → hasRunningTask e w = (true, w).
Proof.
  unfold running_of, hasRunningTask.
  destruct (taskRunningMap w !! e) as [m|]; simpl; [|done].
  intros Hm. rewrite bool_decide_eq_false_2; [done|].
  by rewrite map_size_empty_iff.
Qed.

Lemma pushTaskToRunningMap_unfold (tp : TaskParam) (w : state) :
  pushTaskToRunningMap tp w =
  with_taskRunningMap
    (<[tp_executionId tp := <[tp_taskId tp := tp]> (running_of w (tp_executionId tp))]>
       (taskRunningMap w)) w.
Proof.
  unfold pushTaskToRunningMap, running_of.
  case_bool_decide as Hq.
  - reflexivity.
  - apply eq_None_not_Some in Hq. rewrite Hq. simpl.
    rewrite lookup_insert_eq. simpl. unfold with_taskRunningMap. simpl.
    by rewrite insert_insert_eq.
Qed.

(** The three outcomes of [run]. *)
Lemma run_launch (cid : nat → string) (rp : RunParams) (w : state)
    (np : NodeParam) (rest : list NodeParam) :
  queue_of w (rp_executionId rp) = np :: rest →
  let tp := mkTaskParam (np_executionId np) (np_nodeId np) (cid (minted w)) in
  run cid rp w =
  exec tp
    (pushTaskToRunningMap tp
       (with_minted (S (minted w))
          (with_nodeQueueMap (<[rp_executionId rp := rest]> (nodeQueueMap w)) w))).
Proof.
  intros Hq. unfold run. by rewrite (getNextNode_cons _ _ _ _ Hq).
Qed.

Lemma run_complete (cid : nat → string) (rp : RunParams) (w : state) :
  queue_of w (rp_executionId rp) = [] →
  running_of w (rp_executionId rp) = ∅ →
  run cid rp w =
  emit (EVENT_INSTANCE_COMPLETE
          (mkComplete (rp_executionId rp) (rp_nodeId rp) (rp_taskId rp) COMPLETED))
       (with_taskRunningMap (delete (rp_executionId rp) (taskRunningMap w)) w).
Proof.
  intros Hq Hr. unfold run.
  by rewrite (getNextNode_nil _ _ Hq), (hasRunningTask_empty _ _ Hr).
Qed.

Lemma run_wait (cid : nat → string) (rp : RunParams) (w : state) :
  queue_of w (rp_executionId rp) = [] →
  running_of w (rp_executionId rp) ≠ ∅ →
  run cid rp w = w.
Proof.
  intros Hq Hr. unfold run.
  by rewrite (getNextNode_nil _ _ Hq), (hasRunningTask_busy _ _ Hr).
Qed.

(** [exec] writes to the log only. *)
Lemma exec_unfold (tp : TaskParam) (w : state) :
  exec tp w
  = mkState (nodeQueueMap w) (taskRunningMap w) (flowModel w) (currentTask w) (minted w)
            (now w)
            (calls w
             ++ CreateTask (tp_nodeId tp)
                :: (if flowModel w (tp_nodeId tp)
                    then [ModelExecute
                            (mkExecuteParam (tp_executionId tp) (tp_taskId tp)
                                            (tp_nodeId tp))]
                    else [])).
Proof.
  unfold exec, call. destruct (flowModel w (tp_nodeId tp)); simpl; [|done].
  by rewrite <- app_assoc.
Qed.

Lemma resume_unfold (rs : ResumeParam) (w : state) :
  resume rs w
  = mkState (nodeQueueMap w)
            (<[rs_executionId rs
               := <[rs_taskId rs
                    := mkTaskParam (rs_executionId rs) (rs_nodeId rs) (rs_taskId rs)]>
                    (running_of w (rs_executionId rs))]> (taskRunningMap w))
            (flowModel w) (currentTask w) (minted w) (now w)
            (calls w
             ++ CreateTask (rs_nodeId rs)
                :: (if flowModel w (rs_nodeId rs) then [ModelResume rs] else [])).
Proof.
  unfold resume. rewrite pushTaskToRunningMap_unfold. unfold call. simpl.
  destruct (flowModel w (rs_nodeId rs)); simpl; [|done].
  by rewrite <- app_assoc.
Qed.

Lemma calls_run (cid : nat → string) (rp : RunParams) (w : state) :
  calls (run cid rp w) = calls w ++ run_calls cid rp w.
Proof.
  unfold run_calls.
  destruct (queue_of w (rp_executionId rp)) as [|np rest] eqn:Hq.
  - case_bool_decide as Hr.
    + by rewrite (run_complete _ _ _ Hq Hr).
    + rewrite (run_wait _ _ _ Hq Hr). by rewrite app_nil_r.
  - rewrite (run_launch _ _ _ _ _ Hq), exec_unfold.
    by rewrite pushTaskToRunningMap_unfold.
Qed.

Lemma new_calls_run (cid : nat → string) (rp : RunParams) (w : state) :
  new_calls w (run cid rp w) = run_calls cid rp w.
Proof. apply new_calls_app, calls_run. Qed.

Lemma queue_of_run (cid : nat → string) (rp : RunParams) (w : state) :
  queue_of (run cid rp w) (rp_executionId rp) = tail (queue_of w (rp_executionId rp)).
Proof.
  destruct (queue_of w (rp_executionId rp)) as [|np rest] eqn:Hq.
  - destruct (decide (running_of w (rp_executionId rp) = ∅)) as [Hr|Hr].
    + rewrite (run_complete _ _ _ Hq Hr). exact Hq.
    + rewrite (run_wait _ _ _ Hq Hr). exact Hq.
  - rewrite (run_launch _ _ _ _ _ Hq), exec_unfold.
    rewrite pushTaskToRunningMap_unfold. unfold queue_of at 1. simpl.
    by rewrite lookup_insert_eq.
Qed.

Lemma flowModel_run (cid : nat → string) (rp : RunParams) (w : state) :
  flowModel (run cid rp w) = flowModel w.
Proof.
  destruct (queue_of w (rp_executionId rp)) as [|np rest] eqn:Hq.
  - destruct (decide (running_of w (rp_executionId rp) = ∅)) as [Hr|Hr].
    + by rewrite (run_complete _ _ _ Hq Hr).
    + by rewrite (run_wait _ _ _ Hq Hr).
  - rewrite (run_launch _ _ _ _ _ Hq), exec_unfold.
    by rewrite pushTaskToRunningMap_unfold.
Qed.

Lemma known_nodes_ext (w w' : state) (nodes : list NodeParam) :
  flowModel w' = flowModel w → known_nodes w' nodes = known_nodes w nodes.
Proof. unfold known_nodes. by intros ->. Qed.

Lemma known_nodes_app (w : state) (l l' : list NodeParam) :
  known_nodes w (l ++ l') = known_nodes w l ++ known_nodes w l'.
Proof. apply List.filter_app. Qed.

Lemma known_nodes_all (w : state) (nodes : list NodeParam) :
  Forall (λ np, flowModel w (np_nodeId np) = true) nodes → known_nodes w nodes = nodes.
Proof.
  unfold known_nodes. induction 1 as [|np l Hnp _ IH]; [done|].
  simpl. by rewrite Hnp, IH.
Qed.

(** One launch calls [createTask] for the head of the queue, and [execute]
    if the flow model has that node. *)
Lemma launched_run_calls (cid : nat → string) (rp : RunParams) (w : state) :
  launched (run_calls cid rp w) = known_nodes w (take 1 (queue_of w (rp_executionId rp))).
Proof.
  unfold run_calls.
  destruct (queue_of w (rp_executionId rp)) as [|[e n] rest]; simpl.
  - by case_bool_decide.
  - by destruct (flowModel w n).
Qed.

Lemma created_run_calls (cid : nat → string) (rp : RunParams) (w : state) :
  created (run_calls cid rp w) = map np_nodeId (take 1 (queue_of w (rp_executionId rp))).
Proof.
  unfold run_calls.
  destruct (queue_of w (rp_executionId rp)) as [|[e n] rest]; simpl.
  - by case_bool_decide.
  - by destruct (flowModel w n).
Qed.

Lemma launched_app (cs cs' : list Call) :
  launched (cs ++ cs') = launched cs ++ launched cs'.
Proof. apply omap_app. Qed.









(** C2: a call of [run] emits instance-complete exactly when, at that
    moment, the ready queue of the instance is empty or absent and its
    running registry is empty or absent; the event then carries the
    identifiers of the call.  A [run] right after an [addTask] for the
    instance does not emit it. *)
Theorem run_emits_complete_iff (cid : nat → string) (rp : RunParams) (w : state) :
  let e := rp_executionId rp in
  (emits_complete cid rp w ↔
     (nodeQueueMap w !! e = None ∨ nodeQueueMap w !! e = Some [])
     ∧ (taskRunningMap w !! e = None ∨ taskRunningMap w !! e = Some ∅))
  ∧ completions (new_calls w (run cid rp w))
    = (if bool_decide (emits_complete cid rp w)
       then [mkComplete e (rp_nodeId rp) (rp_taskId rp) COMPLETED] else [])
  ∧ (∀ nodeId, ¬ emits_complete cid rp (addTask (mkNodeParam e nodeId) w)).
Proof.
  cbv zeta.
  assert (Hiff : ∀ w0, emits_complete cid rp w0 ↔
            queue_of w0 (rp_executionId rp) = [] ∧ running_of w0 (rp_executionId rp) = ∅).
  { intros w0. unfold emits_complete. rewrite new_calls_run. unfold run_calls.
    destruct (queue_of w0 (rp_executionId rp)) as [|np rest]; simpl.
    - case_bool_decide; simpl; split; try done; intros [_ ?]; done.
    - destruct (flowModel w0 (np_nodeId np)); split; [done | intros [? _]; done |
                                                       done | intros [? _]; done]. }
  split_and!.
  - rewrite Hiff, queue_of_nil, running_of_empty. done.
  - case_bool_decide as He.
    + apply Hiff in He as [Hq Hr]. rewrite new_calls_run. unfold run_calls.
      rewrite Hq. by rewrite bool_decide_eq_true_2.
    + unfold emits_complete in He. by apply dec_stable in He.
  - intros nodeId [Hq _]%Hiff.
    pose proof (queue_of_addTask (mkNodeParam (rp_executionId rp) nodeId) w) as Ha.
    simpl in Ha. rewrite Ha in Hq. by apply app_nil in Hq as [_ ?].
Qed.

(** ** What each handler does to the ready-queue map *)

Lemma nodeQueueMap_run (cid : nat → string) (rp : RunParams) (w : state) :
  nodeQueueMap (run cid rp w) =
  match queue_of w (rp_executionId rp) with
  | _ :: rest => <[rp_executionId rp := rest]> (nodeQueueMap w)
  | [] => nodeQueueMap w
  end.
Proof.
  destruct (queue_of w (rp_executionId rp)) as [|np rest] eqn:Hq.
  - destruct (decide (running_of w (rp_executionId rp) = ∅)) as [Hr|Hr].
    + by rewrite (run_complete _ _ _ Hq Hr).
    + by rewrite (run_wait _ _ _ Hq Hr).
  - rewrite (run_launch _ _ _ _ _ Hq), exec_unfold. by rewrite pushTaskToRunningMap_unfold.
Qed.

Lemma removeTaskFromRunningMap_frame (tp : TaskParam) (w : state) :
  removeTaskFromRunningMap tp w
  = with_taskRunningMap (taskRunningMap (removeTaskFromRunningMap tp w)) w.
Proof.
  unfold removeTaskFromRunningMap.
  destruct (truthy (tp_taskId tp)); simpl.
  - destruct (taskRunningMap w !! tp_executionId tp); simpl; [done|].
    unfold with_taskRunningMap. by rewrite state_eta.
  - unfold with_taskRunningMap. by rewrite state_eta.
Qed.

Lemma nodeQueueMap_removeTask (tp : TaskParam) (w : state) :
  nodeQueueMap (removeTaskFromRunningMap tp w) = nodeQueueMap w.
Proof. by rewrite removeTaskFromRunningMap_frame. Qed.

Lemma calls_removeTask (tp : TaskParam) (w : state) :
  calls (removeTaskFromRunningMap tp w) = calls w.
Proof. by rewrite removeTaskFromRunningMap_frame. Qed.

Lemma minted_removeTask (tp : TaskParam) (w : state) :
  minted (removeTaskFromRunningMap tp w) = minted w.
Proof. by rewrite removeTaskFromRunningMap_frame. Qed.

(** The registry of the instance after [removeTaskFromRunningMap]: the
    entry is deleted unless the task id is empty. *)
Lemma running_of_removeTask (tp : TaskParam) (w : state) :
  running_of (removeTaskFromRunningMap tp w) (tp_executionId tp)
  = if truthy (tp_taskId tp)
    then delete (tp_taskId tp) (running_of w (tp_executionId tp))
    else running_of w (tp_executionId tp).
Proof.
  unfold removeTaskFromRunningMap, running_of.
  destruct (truthy (tp_taskId tp)); simpl; [|done].
  destruct (taskRunningMap w !! tp_executionId tp) as [m|] eqn:Hm; simpl.
  - by rewrite lookup_insert_eq.
  - rewrite Hm. simpl. by rewrite delete_empty.
Qed.

Lemma taskRunningMap_removeTask_ne (tp : TaskParam) (w : state) (e : string) :
  e ≠ tp_executionId tp →
  taskRunningMap (removeTaskFromRunningMap tp w) !! e = taskRunningMap w !! e.
Proof.
  intros Hne. unfold removeTaskFromRunningMap.
  destruct (truthy (tp_taskId tp)); simpl; [|done].
  destruct (taskRunningMap w !! tp_executionId tp); simpl; [|done].
  by rewrite lookup_insert_ne.
Qed.

Lemma exec_settled_frame (tp : TaskParam) (res : option ActionResult) (w : state) :
  nodeQueueMap (exec_settled tp res w) = nodeQueueMap w
  ∧ minted (exec_settled tp res w) = minted w
  ∧ now (exec_settled tp res w) = now w
  ∧ currentTask (exec_settled tp res w) = currentTask w.
Proof.
  unfold exec_settled. destruct res as [r|]; [|done].
  case_bool_decide; [|done].
  by rewrite removeTaskFromRunningMap_frame.
Qed.

Lemma enqueueOutgoing_frame (e : string) (out : list OutgoingConfig) (w : state) :
  enqueueOutgoing e out w = with_nodeQueueMap (nodeQueueMap (enqueueOutgoing e out w)) w.
Proof.
  unfold enqueueOutgoing. revert w. induction out as [|item out IH]; intros w; simpl.
  - unfold with_nodeQueueMap. by rewrite state_eta.
  - rewrite IH. by rewrite addTask_unfold.
Qed.

Lemma queue_of_enqueueOutgoing (e : string) (out : list OutgoingConfig) (w : state) :
  queue_of (enqueueOutgoing e out w) e
  = queue_of w e ++ map (λ item, mkNodeParam e (target item)) out.
Proof.
  unfold enqueueOutgoing. revert w. induction out as [|item out IH]; intros w; simpl.
  - by rewrite app_nil_r.
  - rewrite IH.
    pose proof (queue_of_addTask (mkNodeParam e (target item)) w) as Ha. simpl in Ha.
    rewrite Ha. by rewrite <- app_assoc.
Qed.

Lemma nodeQueueMap_enqueueOutgoing_ne (e e' : string) (out : list OutgoingConfig)
    (w : state) :
  e' ≠ e →
  nodeQueueMap (enqueueOutgoing e out w) !! e' = nodeQueueMap w !! e'.
Proof.
  intros Hne. unfold enqueueOutgoing.
  revert w. induction out as [|item out IH]; intros w; simpl; [done|].
  rewrite IH. by apply queue_of_addTask_ne.
Qed.

Lemma nodeQueueMap_enqueueOutgoing_is_Some (e e' : string) (out : list OutgoingConfig)
    (w : state) :
  is_Some (nodeQueueMap w !! e') →
  is_Some (nodeQueueMap (enqueueOutgoing e out w) !! e').
Proof.
  unfold enqueueOutgoing.
  revert w. induction out as [|item out IH]; intros w Hs; simpl; [done|].
  apply IH. rewrite addTask_unfold. simpl.
  destruct (decide (e = e')) as [->|Hne].
  - rewrite lookup_insert_eq. eauto.
  - by rewrite lookup_insert_ne.
Qed.

Lemma next_unfold (cid : nat → string) (data : NextTaskParam) (w : state) :
  next cid data w
  = run cid (mkRunParams (nt_executionId data) (Some (nt_nodeId data))
                         (Some (nt_taskId data)))
      (removeTaskFromRunningMap (asTaskParam data)
         (saveTaskResult (mkTaskResult data None)
            (enqueueOutgoing (nt_executionId data) (nt_outgoing data) w))).
Proof. reflexivity. Qed.

(** No handler ever takes an instance out of the ready-queue map. *)
Lemma nodeQueueMap_step_is_Some (cid : nat → string) (i : input) (w : state)
    (e : string) :
  is_Some (nodeQueueMap w !! e) → is_Some (nodeQueueMap (step cid i w) !! e).
Proof.
  assert (Hrun : ∀ rp w0, is_Some (nodeQueueMap w0 !! e) →
                          is_Some (nodeQueueMap (run cid rp w0) !! e)).
  { intros rp w0 Hs. rewrite nodeQueueMap_run.
    destruct (queue_of w0 (rp_executionId rp)); [done|].
    destruct (decide (rp_executionId rp = e)) as [->|Hne].
    - rewrite lookup_insert_eq. eauto.
    - by rewrite lookup_insert_ne. }
  intros Hs. destruct i as [np|rp|rs|data|tp res|rs res|t]; cbn [step].
  - rewrite addTask_unfold. simpl.
    destruct (decide (np_executionId np = e)) as [->|Hne].
    + rewrite lookup_insert_eq. eauto.
    + by rewrite lookup_insert_ne.
  - by apply Hrun.
  - by rewrite resume_unfold.
  - rewrite next_unfold. apply Hrun.
    rewrite nodeQueueMap_removeTask. simpl.
    by apply nodeQueueMap_enqueueOutgoing_is_Some.
  - by rewrite (proj1 (exec_settled_frame tp res w)).
  - done.
  - done.
Qed.

Lemma nodeQueueMap_steps_is_Some (cid : nat → string) (inputs : list input) (w : state)
    (e : string) :
  is_Some (nodeQueueMap w !! e) → is_Some (nodeQueueMap (steps cid inputs w) !! e).
Proof.
  unfold steps. revert w. induction inputs as [|i inputs IH]; intros w Hs; simpl; [done|].
  by apply IH, nodeQueueMap_step_is_Some.
Qed.

(** ** Instances the dispatcher has no work for *)

Lemma nodeQueueMap_run_None (cid : nat → string) (rp : RunParams) (w : state)
    (e : string) :
  nodeQueueMap w !! e = None → nodeQueueMap (run cid rp w) !! e = None.
Proof.
  intros Hn. rewrite nodeQueueMap_run.
  destruct (queue_of w (rp_executionId rp)) as [|np rest] eqn:Hq; [done|].
  rewrite lookup_insert_ne; [done|].
  intros He. subst e. unfold queue_of in Hq. by rewrite Hn in Hq.
Qed.

Lemma nodeQueueMap_step_None (cid : nat → string) (i : input) (w : state) (e : string) :
  enqueues_for e i = false →
  nodeQueueMap w !! e = None → nodeQueueMap (step cid i w) !! e = None.
Proof.
  intros Hi Hn. destruct i as [np|rp|rs|data|tp res|rs res|t]; cbn [step].
  - simpl in Hi. apply bool_decide_eq_false in Hi.
    rewrite queue_of_addTask_ne; [done|]. congruence.
  - by apply nodeQueueMap_run_None.
  - by rewrite resume_unfold.
  - rewrite next_unfold. apply nodeQueueMap_run_None.
    rewrite nodeQueueMap_removeTask. simpl.
    simpl in Hi. apply andb_false_iff in Hi as [Hi|Hi].
    + apply bool_decide_eq_false in Hi.
      rewrite nodeQueueMap_enqueueOutgoing_ne; [done|]. congruence.
    + apply negb_false_iff, bool_decide_eq_true in Hi. by rewrite Hi.
  - by rewrite (proj1 (exec_settled_frame tp res w)).
  - done.
  - done.
Qed.

Lemma nodeQueueMap_steps_None (cid : nat → string) (inputs : list input) (w : state)
    (e : string) :
  forallb (λ i, negb (enqueues_for e i)) inputs = true →
  nodeQueueMap w !! e = None → nodeQueueMap (steps cid inputs w) !! e = None.
Proof.
  unfold steps. revert w. induction inputs as [|i inputs IH]; intros w Hall Hn; [done|].
  simpl in Hall. apply andb_true_iff in Hall as [Hi Hall].
  apply negb_true_iff in Hi. simpl.
  by apply IH, nodeQueueMap_step_None.
Qed.

(** C10: take any history of the dispatcher in which no node was ever
    enqueued for the instance (in particular an id it has never seen), and
    let no task of the instance be running.  Then one [run] makes exactly
    one outgoing call, the instance-complete event with status COMPLETED and
    the [nodeId] and [taskId] of the call (absent if omitted); no task id is
    minted, nothing is started, and both maps have no work for the
    instance afterwards. *)
Theorem run_unseen_instance_completes (cid : nat → string)
    (fm : string → bool) (t0 : Z)
    (inputs : list input) (rp : RunParams) :
  let e := rp_executionId rp in
  let w := steps cid inputs (new fm t0) in
  forallb (λ i, negb (enqueues_for e i)) inputs = true →
  running_of w e = ∅ →
  new_calls w (run cid rp w)
  = [Emit (EVENT_INSTANCE_COMPLETE
             (mkComplete e (rp_nodeId rp) (rp_taskId rp) COMPLETED))]
  ∧ launched (new_calls w (run cid rp w)) = []
  ∧ minted (run cid rp w) = minted w
  ∧ nodeQueueMap (run cid rp w) = nodeQueueMap w
  ∧ taskRunningMap (run cid rp w) !! e = None.
Proof.
  intros e w Hall Hr.
  assert (Hq : queue_of w e = []).
  { apply queue_of_nil. left. by apply nodeQueueMap_steps_None. }
  assert (Hc : new_calls w (run cid rp w)
               = [Emit (EVENT_INSTANCE_COMPLETE
                          (mkComplete e (rp_nodeId rp) (rp_taskId rp) COMPLETED))]).
  { rewrite new_calls_run. unfold run_calls. fold e. rewrite Hq.
    by rewrite bool_decide_eq_true_2. }
  rewrite Hc. rewrite (run_complete cid rp w Hq Hr).
  split_and!; try done.
  simpl. apply lookup_delete_eq.
Qed.

(** ** A complete run of a one-node flow *)

(** C9: instance [e1] runs its only node to completion.  The dispatcher
    announces completion and drops the instance from the running-task map,
    but the ready-queue map still holds an (empty) queue for it, and keeps
    holding one whatever happens later. *)
Theorem finished_instance_keeps_queue_entry :
  let w := steps sampleIds oneNodeFlow (new allNodes 0) in
  completions (calls w) = [mkComplete "e1" (Some "A") (Some "task") COMPLETED]
  ∧ taskRunningMap w !! "e1" = None
  ∧ nodeQueueMap w !! "e1" = Some []
  ∧ ∀ later, is_Some (nodeQueueMap (steps sampleIds later w) !! "e1").
Proof.
  cbv zeta.
  assert (Hq : nodeQueueMap (steps sampleIds oneNodeFlow (new allNodes 0)) !! "e1" = Some []).
  { by vm_compute. }
  split_and!; [by vm_compute | by vm_compute | done |].
  intros later. apply nodeQueueMap_steps_is_Some. rewrite Hq. eauto.
Qed.

(** ** Settlement: interruption *)

Lemma exec_settled_interrupted (tp : TaskParam) (r : ActionResult) (w : state) :
  ar_status r = INTERRUPTED →
  exec_settled tp (Some r) w
  = removeTaskFromRunningMap tp
      (call (RecorderAddTask (interruptionRecord tp r (now w)))
         (call (Emit (EVENT_INSTANCE_INTERRUPTED (interruptionEvent tp r))) w)).
Proof.
  intros Hs. unfold exec_settled. by rewrite bool_decide_eq_true_2.
Qed.

Lemma calls_exec_settled_interrupted (tp : TaskParam) (r : ActionResult) (w : state) :
  ar_status r = INTERRUPTED →
  calls (exec_settled tp (Some r) w)
  = calls w ++ [Emit (EVENT_INSTANCE_INTERRUPTED (interruptionEvent tp r));
                RecorderAddTask (interruptionRecord tp r (now w))].
Proof.
  intros Hs. rewrite (exec_settled_interrupted _ _ _ Hs), calls_removeTask.
  simpl. by rewrite <- app_assoc.
Qed.

(** C1: when [execute] resolves to an INTERRUPTED result, exactly one record
    goes to the recorder, with the task's [executionId], [taskId], [nodeId]
    and the result's [nodeType] and [properties]; but it has no [extraInfo]:
    the [{status, detail}] object built by [exec] is dropped by
    [saveTaskResult], and what the recorder then stores under the task id
    has no [extraInfo] either. *)
Theorem interrupted_record_has_no_extraInfo (tp : TaskParam) (nodeType : string)
    (properties detail : option Payload) (outgoing : list OutgoingConfig) (w : state) :
  let r := mkActionResult INTERRUPTED nodeType properties outgoing detail in
  recorded (new_calls w (exec_settled tp (Some r) w))
  = [mkRecorderData (tp_executionId tp) (tp_taskId tp) (tp_nodeId tp) nodeType (now w)
                    properties None]
  ∧ Forall (λ rec, rd_extraInfo rec ≠ Some (mkExtraInfo INTERRUPTED detail))
           (recorded (new_calls w (exec_settled tp (Some r) w)))
  ∧ (∀ rec s s',
       rec ∈ recorded (new_calls w (exec_settled tp (Some r) w)) →
       Recorder.addTask rec s = Some s' →
       ∃ stored, Recorder.getTask (tp_taskId tp) s' = Some (Recorder.ItemTask stored)
                 ∧ rd_extraInfo stored = None).
Proof.
  cbv zeta.
  rewrite (new_calls_app _ _ _
             (calls_exec_settled_interrupted tp
                (mkActionResult INTERRUPTED nodeType properties outgoing detail) w
                eq_refl)).
  split_and!; [done | by repeat constructor |].
  intros rec s s' Hin Hadd. simpl in Hin.
  apply list_elem_of_singleton in Hin. subst rec.
  apply RecorderFacts.addTask_stores in Hadd. simpl in Hadd. eauto.
Qed.

(** C4: a task that [run] launched (its id comes from [createTaskId], which
    hands out non-empty ids) and whose [execute] resolves to an INTERRUPTED
    result: whatever the state at that moment, the ready-queue map is left
    as it is (no outgoing target is enqueued), the task's entry is gone from
    the running registry and no other entry is touched, the
    instance-interrupted event is emitted with the task's [executionId],
    [nodeId], [taskId] and the result's [detail], and there is no launch: no
    id is minted, nothing is started, no completion is announced.  (The
    first conjunct is the launch itself: [createTask] is called for the
    node, and [execute] is started once [createTask] has returned.) *)
Theorem interrupted_task_goes_dormant (cid : nat → string) (rp : RunParams)
    (w0 : state) (np : NodeParam) (rest : list NodeParam) (r : ActionResult)
    (w : state) :
  (∀ k, cid k ≠ EmptyString) →
  queue_of w0 (rp_executionId rp) = np :: rest →
  ar_status r = INTERRUPTED →
  let tp := mkTaskParam (np_executionId np) (np_nodeId np) (cid (minted w0)) in
  let w' := exec_settled tp (Some r) w in
  new_calls w0 (run cid rp w0)
  = CreateTask (tp_nodeId tp)
    :: (if flowModel w0 (tp_nodeId tp)
        then [ModelExecute
                (mkExecuteParam (tp_executionId tp) (tp_taskId tp) (tp_nodeId tp))]
        else [])
  ∧ nodeQueueMap w' = nodeQueueMap w
  ∧ running_of w' (tp_executionId tp) !! tp_taskId tp = None
  ∧ running_of w' (tp_executionId tp)
    = delete (tp_taskId tp) (running_of w (tp_executionId tp))
  ∧ (∀ e', e' ≠ tp_executionId tp → taskRunningMap w' !! e' = taskRunningMap w !! e')
  ∧ emitted (new_calls w w')
    = [EVENT_INSTANCE_INTERRUPTED
         (mkInterrupted (tp_executionId tp) INTERRUPTED (tp_nodeId tp) (tp_taskId tp)
                        (ar_detail r))]
  ∧ launched (new_calls w w') = []
  ∧ minted w' = minted w.
Proof.
  intros Hcid Hq Hs tp w'.
  assert (Ht : truthy (tp_taskId tp) = true) by (apply truthy_true, Hcid).
  assert (Hr : running_of w' (tp_executionId tp)
               = delete (tp_taskId tp) (running_of w (tp_executionId tp))).
  { unfold w'. rewrite (exec_settled_interrupted _ _ _ Hs).
    rewrite running_of_removeTask, Ht. reflexivity. }
  split_and!.
  - rewrite new_calls_run. unfold run_calls. by rewrite Hq.
  - apply exec_settled_frame.
  - rewrite Hr. apply lookup_delete_eq.
  - exact Hr.
  - intros e' Hne. unfold w'. rewrite (exec_settled_interrupted _ _ _ Hs).
    by rewrite taskRunningMap_removeTask_ne.
  - unfold w'. by rewrite (new_calls_app _ _ _ (calls_exec_settled_interrupted tp r w Hs)).
  - unfold w'. by rewrite (new_calls_app _ _ _ (calls_exec_settled_interrupted tp r w Hs)).
  - apply exec_settled_frame.
Qed.

(** ** Settlement: the continuation *)

Lemma recorded_run_calls (cid : nat → string) (rp : RunParams) (w : state) :
  recorded (run_calls cid rp w) = [].
Proof.
  unfold run_calls. destruct (queue_of w (rp_executionId rp)) as [|np rest].
  - by case_bool_decide.
  - simpl. by destruct (flowModel w (np_nodeId np)).
Qed.

(** C5 (as amended): [next] enqueues the targets of [outgoing], in order,
    at the tail of the instance's queue (one [addTask] each), hands exactly
    one record to the recorder, removes the settled task's entry from the
    running registry when its [taskId] is not empty (with an empty [taskId]
    the registry is left as it is), and then calls [run] for the instance
    with the settled [nodeId] and [taskId]. *)
Theorem next_settles_task (cid : nat → string) (data : NextTaskParam) (w : state) :
  let e := nt_executionId data in
  let w3 :=
    removeTaskFromRunningMap (asTaskParam data)
      (saveTaskResult (mkTaskResult data None)
         (enqueueOutgoing e (nt_outgoing data) w)) in
  let rec :=
    mkRecorderData e (nt_taskId data) (nt_nodeId data) (nt_nodeType data) (now w)
                   (nt_properties data) None in
  next cid data w
  = run cid (mkRunParams e (Some (nt_nodeId data)) (Some (nt_taskId data))) w3
  ∧ queue_of w3 e
    = queue_of w e ++ map (λ item, mkNodeParam e (target item)) (nt_outgoing data)
  ∧ (∀ e', e' ≠ e → nodeQueueMap w3 !! e' = nodeQueueMap w !! e')
  ∧ calls w3 = calls w ++ [RecorderAddTask rec]
  ∧ recorded (new_calls w (next cid data w)) = [rec]
  ∧ running_of w3 e
    = (if truthy (nt_taskId data)
       then delete (nt_taskId data) (running_of w e) else running_of w e)
  ∧ (∀ e', e' ≠ e → taskRunningMap w3 !! e' = taskRunningMap w !! e')
  ∧ minted w3 = minted w.
Proof.
  intros e w3 rec.
  assert (Hc : calls w3 = calls w ++ [RecorderAddTask rec]).
  { unfold w3. rewrite calls_removeTask. simpl.
    rewrite (enqueueOutgoing_frame e (nt_outgoing data) w). reflexivity. }
  split_and!.
  - reflexivity.
  - unfold w3, queue_of. rewrite nodeQueueMap_removeTask. simpl.
    apply queue_of_enqueueOutgoing.
  - intros e' Hne. unfold w3. rewrite nodeQueueMap_removeTask. simpl.
    by apply nodeQueueMap_enqueueOutgoing_ne.
  - exact Hc.
  - rewrite next_unfold. fold e. fold w3.
    erewrite new_calls_app; [|by rewrite calls_run, Hc, <- app_assoc].
    unfold recorded. rewrite omap_app. fold recorded.
    by rewrite recorded_run_calls.
  - unfold w3. rewrite (running_of_removeTask (asTaskParam data)). simpl.
    unfold running_of. simpl.
    by rewrite (enqueueOutgoing_frame e (nt_outgoing data) w).
  - intros e' Hne. unfold w3.
    rewrite (taskRunningMap_removeTask_ne (asTaskParam data)) by done. simpl.
    by rewrite (enqueueOutgoing_frame e (nt_outgoing data) w).
  - unfold w3. rewrite minted_removeTask. simpl.
    by rewrite (enqueueOutgoing_frame e (nt_outgoing data) w).
Qed.

(** ** Resumption *)

(** C7: a [resume] whose node answers with an INTERRUPTED result.  From the
    call to the settlement the dispatcher makes two outgoing calls, the
    creation of the node model and, once that has returned, its [resume];
    it emits no instance-interrupted event and hands nothing to the
    recorder, the task stays in the running registry, and the state is the
    same whatever the result was: its status is never looked at. *)
Theorem resume_ignores_interrupted_result (rs : ResumeParam) (r : ActionResult)
    (w : state) :
  ar_status r = INTERRUPTED →
  let w' := resume_settled rs (Some r) (resume rs w) in
  new_calls w w'
  = CreateTask (rs_nodeId rs) :: (if flowModel w (rs_nodeId rs) then [ModelResume rs] else [])
  ∧ interruptions (new_calls w w') = []
  ∧ recorded (new_calls w w') = []
  ∧ running_of w' (rs_executionId rs) !! rs_taskId rs
    = Some (mkTaskParam (rs_executionId rs) (rs_nodeId rs) (rs_taskId rs))
  ∧ (∀ other, resume_settled rs other (resume rs w) = w').
Proof.
  intros _ w'.
  assert (Hc : new_calls w w'
               = CreateTask (rs_nodeId rs)
                 :: (if flowModel w (rs_nodeId rs) then [ModelResume rs] else [])).
  { apply new_calls_app. unfold w', resume_settled. by rewrite resume_unfold. }
  rewrite Hc. split_and!; try done.
  - by destruct (flowModel w (rs_nodeId rs)).
  - by destruct (flowModel w (rs_nodeId rs)).
  - unfold w', resume_settled, running_of. rewrite resume_unfold. simpl.
    rewrite lookup_insert_eq. simpl. by rewrite lookup_insert_eq.
Qed.

(** ** Closed instances *)

(** The linear chain of the design: the three nodes are started in order,
    each settlement is recorded, and completion is announced once, by the
    launch that follows the last settlement. *)
Example chain_runs_to_completion :
  let w := steps sampleIds chainFlow (new allNodes 0) in
  launched (calls w) = [mkNodeParam "e1" "A"; mkNodeParam "e1" "B"; mkNodeParam "e1" "C"]
  ∧ map rd_nodeId (recorded (calls w)) = ["A"; "B"; "C"]
  ∧ completions (calls w) = [mkComplete "e1" (Some "C") (Some "task") COMPLETED]
  ∧ queue_of w "e1" = [] ∧ running_of w "e1" = ∅.
Proof. cbv zeta. split_and!; by vm_compute. Qed.

(** C5 (as stated) fails for a task with an empty id: [resume] registers
    it, and its continuation leaves the entry in the running registry. *)
Lemma next_keeps_entry_of_empty_task_id :
  running_of (resume resumeNoId (new allNodes 0)) "e1" !! EmptyString
  = Some (mkTaskParam "e1" "A" EmptyString)
  ∧ running_of (next sampleIds settleNoId (resume resumeNoId (new allNodes 0))) "e1" !! EmptyString
    = Some (mkTaskParam "e1" "A" EmptyString)
  ∧ completions (calls (next sampleIds settleNoId (resume resumeNoId (new allNodes 0)))) = [].
Proof. split_and!; by vm_compute. Qed.

(** Instance [e2] is unknown to a dispatcher that has only run [e1]. *)
Lemma run_unseen_instance_completes_witness :
  new_calls (steps sampleIds oneNodeFlow (new allNodes 0))
            (run sampleIds (mkRunParams "e2" (Some "Z") None)
                 (steps sampleIds oneNodeFlow (new allNodes 0)))
  = [Emit (EVENT_INSTANCE_COMPLETE (mkComplete "e2" (Some "Z") None COMPLETED))].
Proof.
  refine (proj1 (run_unseen_instance_completes sampleIds allNodes 0 oneNodeFlow
                   (mkRunParams "e2" (Some "Z") None) _ _)).
  - vm_compute. reflexivity.
  - vm_compute. reflexivity.
Defined.

(** Node [A] of instance [e1] is launched and suspends. *)
Lemma interrupted_task_goes_dormant_witness :
  let w0 := addTask nodeA (new allNodes 0) in
  let w := run sampleIds runE1 w0 in
  let w' := exec_settled (mkTaskParam "e1" "A" "task") (Some suspended) w in
  running_of w "e1" !! "task" = Some (mkTaskParam "e1" "A" "task")
  ∧ running_of w' "e1" !! "task" = None
  ∧ nodeQueueMap w' = nodeQueueMap w
  ∧ emitted (new_calls w w')
    = [EVENT_INSTANCE_INTERRUPTED
         (mkInterrupted "e1" INTERRUPTED "A" "task" (Some "{formId: 42}"))].
Proof.
  cbv zeta.
  assert (Hids : ∀ k, sampleIds k ≠ EmptyString) by (intros k; discriminate).
  destruct (interrupted_task_goes_dormant sampleIds runE1 (addTask nodeA (new allNodes 0))
              nodeA [] suspended (run sampleIds runE1 (addTask nodeA (new allNodes 0)))
              Hids eq_refl eq_refl) as (_ & Hq & Hgone & _ & _ & Hev & _ & _).
  split_and!.
  - vm_compute. reflexivity.
  - exact Hgone.
  - exact Hq.
  - exact Hev.
Defined.

(** A resumed task answers by suspending again. *)
Lemma resume_ignores_interrupted_result_witness :
  new_calls (new allNodes 0) (resume_settled resumeTask (Some suspended) (resume resumeTask (new allNodes 0)))
  = [CreateTask "A"; ModelResume resumeTask].
Proof.
  exact (proj1 (resume_ignores_interrupted_result resumeTask suspended (new allNodes 0) eq_refl)).
Defined.

End SchedulerFacts.

(** * Further properties of the dispatcher *)

Module SchedulerExtra.
Import Scheduler Samples MoreSamples History SchedulerFacts.

(** ** Reading one instance out of the maps *)

Lemma queue_of_ext (w w' : state) (e : string) :
  nodeQueueMap w' !! e = nodeQueueMap w !! e → queue_of w' e = queue_of w e.
Proof. unfold queue_of. by intros ->. Qed.

Lemma running_of_ext (w w' : state) (e : string) :
  taskRunningMap w' !! e = taskRunningMap w !! e → running_of w' e = running_of w e.
Proof. unfold running_of. by intros ->. Qed.

Lemma queue_of_addTask_any (np : NodeParam) (w : state) (e : string) :
  queue_of (addTask np w) e
  = queue_of w e ++ (if bool_decide (np_executionId np = e) then [np] else []).
Proof.
  case_bool_decide as He.
  - subst e. apply queue_of_addTask.
  - rewrite app_nil_r. apply queue_of_ext, queue_of_addTask_ne. congruence.
Qed.

Lemma queue_of_enqueueOutgoing_any (e0 e : string) (out : list OutgoingConfig)
    (w : state) :
  queue_of (enqueueOutgoing e0 out w) e
  = queue_of w e ++ (if bool_decide (e0 = e)
                     then map (λ item, mkNodeParam e (target item)) out else []).
Proof.
  case_bool_decide as He.
  - subst e. apply queue_of_enqueueOutgoing.
  - rewrite app_nil_r. apply queue_of_ext, nodeQueueMap_enqueueOutgoing_ne. congruence.
Qed.

Lemma nodeQueueMap_run_ne (cid : nat → string) (rp : RunParams) (w : state) (e : string) :
  e ≠ rp_executionId rp → nodeQueueMap (run cid rp w) !! e = nodeQueueMap w !! e.
Proof.
  intros Hne. rewrite nodeQueueMap_run.
  destruct (queue_of w (rp_executionId rp)); [done|].
  by rewrite lookup_insert_ne.
Qed.

Lemma queue_of_run_any (cid : nat → string) (rp : RunParams) (w : state) (e : string) :
  queue_of (run cid rp w) e
  = if bool_decide (e = rp_executionId rp) then tail (queue_of w e) else queue_of w e.
Proof.
  case_bool_decide as He.
  - subst e. apply queue_of_run.
  - by apply queue_of_ext, nodeQueueMap_run_ne.
Qed.

Lemma running_of_push (tp : TaskParam) (w : state) (e : string) :
  running_of (pushTaskToRunningMap tp w) e
  = if bool_decide (e = tp_executionId tp)
    then <[tp_taskId tp := tp]> (running_of w e) else running_of w e.
Proof.
  rewrite pushTaskToRunningMap_unfold. unfold running_of at 1. simpl.
  case_bool_decide as He.
  - subst e. by rewrite lookup_insert_eq.
  - by rewrite lookup_insert_ne.
Qed.

Lemma running_of_remove (tp : TaskParam) (w : state) (e : string) :
  running_of (removeTaskFromRunningMap tp w) e
  = if bool_decide (e = tp_executionId tp) && truthy (tp_taskId tp)
    then delete (tp_taskId tp) (running_of w e) else running_of w e.
Proof.
  case_bool_decide as He; simpl.
  - subst e. apply running_of_removeTask.
  - by apply running_of_ext, taskRunningMap_removeTask_ne.
Qed.

Lemma taskRunningMap_exec (tp : TaskParam) (w : state) :
  taskRunningMap (exec tp w) = taskRunningMap w.
Proof. by rewrite exec_unfold. Qed.

Lemma running_of_exec (tp : TaskParam) (w : state) (e : string) :
  running_of (exec tp w) e = running_of w e.
Proof. by rewrite exec_unfold. Qed.

(** The registry of any instance after a [run]: the launched task is added
    to the registry of its node's instance; nothing else is visible. *)
Lemma running_of_run (cid : nat → string) (rp : RunParams) (w : state) (e : string) :
  running_of (run cid rp w) e
  = match queue_of w (rp_executionId rp) with
    | np :: _ =>
        if bool_decide (e = np_executionId np)
        then <[cid (minted w) :=
                 mkTaskParam (np_executionId np) (np_nodeId np) (cid (minted w))]>
               (running_of w e)
        else running_of w e
    | [] => running_of w e
    end.
Proof.
  destruct (queue_of w (rp_executionId rp)) as [|np rest] eqn:Hq.
  - destruct (decide (running_of w (rp_executionId rp) = ∅)) as [Hr|Hr].
    + rewrite (run_complete _ _ _ Hq Hr). unfold running_of at 1. simpl.
      destruct (decide (e = rp_executionId rp)) as [->|Hne].
      * by rewrite lookup_delete_eq.
      * by rewrite lookup_delete_ne.
    + by rewrite (run_wait _ _ _ Hq Hr).
  - rewrite (run_launch _ _ _ _ _ Hq).
    rewrite running_of_exec.
    by rewrite running_of_push.
Qed.

(** ** The key discipline is an invariant *)

Lemma queues_consistent_addTask (np : NodeParam) (w : state) :
  queues_consistent w → queues_consistent (addTask np w).
Proof.
  intros Hc e x. rewrite queue_of_addTask_any.
  intros [Hin|Hin]%elem_of_app; [by apply Hc|].
  case_bool_decide; [|by apply elem_of_nil in Hin].
  apply list_elem_of_singleton in Hin. by subst x.
Qed.

Lemma queues_consistent_enqueueOutgoing (e0 : string) (out : list OutgoingConfig)
    (w : state) :
  queues_consistent w → queues_consistent (enqueueOutgoing e0 out w).
Proof.
  unfold enqueueOutgoing. revert w.
  induction out as [|item out IH]; intros w Hc; simpl; [done|].
  by apply IH, queues_consistent_addTask.
Qed.

Lemma queues_consistent_run (cid : nat → string) (rp : RunParams) (w : state) :
  queues_consistent w → queues_consistent (run cid rp w).
Proof.
  intros Hc e x. rewrite queue_of_run_any.
  case_bool_decide; [|by apply Hc].
  intros Hin. apply Hc. destruct (queue_of w e) as [|y q]; [done|].
  simpl in Hin. by apply elem_of_cons; right.
Qed.

Lemma queues_consistent_ext (w w' : state) :
  nodeQueueMap w' = nodeQueueMap w → queues_consistent w → queues_consistent w'.
Proof.
  intros Hm Hc e x. rewrite (queue_of_ext w w') by by rewrite Hm. apply Hc.
Qed.

Lemma queues_consistent_step (cid : nat → string) (i : input) (w : state) :
  queues_consistent w → queues_consistent (step cid i w).
Proof.
  intros Hc. destruct i as [np|rp|rs|data|tp res|rs res|t]; cbn [step].
  - by apply queues_consistent_addTask.
  - by apply queues_consistent_run.
  - refine (queues_consistent_ext w _ _ Hc).
    by rewrite resume_unfold.
  - rewrite next_unfold. apply queues_consistent_run.
    refine (queues_consistent_ext (enqueueOutgoing (nt_executionId data)
                                     (nt_outgoing data) w) _ _ _).
    + by rewrite nodeQueueMap_removeTask.
    + by apply queues_consistent_enqueueOutgoing.
  - refine (queues_consistent_ext w _ _ Hc). apply exec_settled_frame.
  - done.
  - done.
Qed.

Lemma registry_consistent_push (tp : TaskParam) (w : state) :
  registry_consistent w → registry_consistent (pushTaskToRunningMap tp w).
Proof.
  intros Hc e t x. rewrite running_of_push.
  case_bool_decide as He; [|by apply Hc].
  destruct (decide (t = tp_taskId tp)) as [->|Hne].
  - rewrite lookup_insert_eq. intros [= <-]. by subst e.
  - rewrite lookup_insert_ne by done. apply Hc.
Qed.

Lemma registry_consistent_remove (tp : TaskParam) (w : state) :
  registry_consistent w → registry_consistent (removeTaskFromRunningMap tp w).
Proof.
  intros Hc e t x. rewrite running_of_remove.
  destruct (bool_decide (e = tp_executionId tp) && truthy (tp_taskId tp)); [|by apply Hc].
  intros [_ Hx]%lookup_delete_Some. by apply Hc.
Qed.

Lemma registry_consistent_ext (w w' : state) :
  taskRunningMap w' = taskRunningMap w → registry_consistent w → registry_consistent w'.
Proof.
  intros Hm Hc e t x. rewrite (running_of_ext w w') by by rewrite Hm. apply Hc.
Qed.

Lemma registry_consistent_run (cid : nat → string) (rp : RunParams) (w : state) :
  registry_consistent w → registry_consistent (run cid rp w).
Proof.
  intros Hc e t x. rewrite running_of_run.
  destruct (queue_of w (rp_executionId rp)) as [|np rest]; [by apply Hc|].
  case_bool_decide as He; [|by apply Hc].
  destruct (decide (t = cid (minted w))) as [->|Hne].
  - rewrite lookup_insert_eq. intros [= <-]. by subst e.
  - rewrite lookup_insert_ne by done. apply Hc.
Qed.

Lemma registry_consistent_step (cid : nat → string) (i : input) (w : state) :
  registry_consistent w → registry_consistent (step cid i w).
Proof.
  intros Hc. destruct i as [np|rp|rs|data|tp res|rs res|t]; cbn [step].
  - refine (registry_consistent_ext w _ _ Hc). by rewrite addTask_unfold.
  - by apply registry_consistent_run.
  - refine (registry_consistent_ext
              (pushTaskToRunningMap
                 (mkTaskParam (rs_executionId rs) (rs_nodeId rs) (rs_taskId rs)) w) _ _ _).
    + by rewrite resume_unfold, pushTaskToRunningMap_unfold.
    + by apply registry_consistent_push.
  - rewrite next_unfold. apply registry_consistent_run, registry_consistent_remove.
    refine (registry_consistent_ext w _ _ Hc). simpl.
    by rewrite (enqueueOutgoing_frame (nt_executionId data) (nt_outgoing data) w).
  - unfold exec_settled. destruct res as [r|]; [|done].
    case_bool_decide; [|done].
    by apply registry_consistent_remove.
  - done.
  - done.
Qed.

Lemma steps_snoc (cid : nat → string) (inputs : list input) (i : input) (w : state) :
  steps cid (inputs ++ [i]) w = step cid i (steps cid inputs w).
Proof. unfold steps. by rewrite foldl_app. Qed.

Lemma steps_consistent (cid : nat → string) (fm : string → bool) (t0 : Z)
    (inputs : list input) :
  queues_consistent (steps cid inputs (new fm t0))
  ∧ registry_consistent (steps cid inputs (new fm t0)).
Proof.
  induction inputs as [|i inputs [IHq IHr]] using rev_ind.
  - split.
    + intros e np Hin. by apply elem_of_nil in Hin.
    + intros e t tp Hin. done.
  - rewrite steps_snoc. split.
    + by apply queues_consistent_step.
    + by apply registry_consistent_step.
Qed.

(** X1: whatever the history of the dispatcher since its construction,
    every queued node sits in the queue of its own [executionId], and every
    registered task sits in the registry of its own [executionId] under its
    own [taskId]. *)
Theorem reachable_maps_keyed_consistently (cid : nat → string)
    (fm : string → bool) (t0 : Z)
    (inputs : list input) :
  let w := steps cid inputs (new fm t0) in
  (∀ e np, np ∈ queue_of w e → np_executionId np = e)
  ∧ (∀ e t tp, running_of w e !! t = Some tp → tp_executionId tp = e ∧ tp_taskId tp = t).
Proof. exact (steps_consistent cid fm t0 inputs). Qed.

(** ** What one input adds to the log *)

Lemma launched_for_app (e : string) (cs cs' : list Call) :
  launched_for e (cs ++ cs') = launched_for e cs ++ launched_for e cs'.
Proof. unfold launched_for. by rewrite launched_app, filter_app. Qed.

Lemma calls_next (cid : nat → string) (data : NextTaskParam) (w : state) :
  let e := nt_executionId data in
  let w3 :=
    removeTaskFromRunningMap (asTaskParam data)
      (saveTaskResult (mkTaskResult data None)
         (enqueueOutgoing e (nt_outgoing data) w)) in
  calls (next cid data w)
  = calls w
    ++ RecorderAddTask
         (mkRecorderData e (nt_taskId data) (nt_nodeId data) (nt_nodeType data) (now w)
                         (nt_properties data) None)
       :: run_calls cid (mkRunParams e (Some (nt_nodeId data)) (Some (nt_taskId data))) w3.
Proof.
  cbv zeta. rewrite next_unfold, calls_run, calls_removeTask. simpl.
  rewrite (enqueueOutgoing_frame (nt_executionId data) (nt_outgoing data) w). simpl.
  by rewrite <- app_assoc.
Qed.

Lemma minted_run (cid : nat → string) (rp : RunParams) (w : state) :
  minted (run cid rp w) = minted w + length (created (run_calls cid rp w)).
Proof.
  unfold run_calls.
  destruct (queue_of w (rp_executionId rp)) as [|np rest] eqn:Hq.
  - destruct (decide (running_of w (rp_executionId rp) = ∅)) as [Hr|Hr].
    + rewrite (run_complete _ _ _ Hq Hr), bool_decide_eq_true_2 by done. simpl. lia.
    + rewrite (run_wait _ _ _ Hq Hr), bool_decide_eq_false_2 by done. simpl. lia.
  - rewrite (run_launch _ _ _ _ _ Hq), exec_unfold, pushTaskToRunningMap_unfold. simpl.
    destruct (flowModel w (np_nodeId np)); simpl; lia.
Qed.

Lemma launched_le_created_run_calls (cid : nat → string) (rp : RunParams) (w : state) :
  (length (launched (run_calls cid rp w)) ≤ length (created (run_calls cid rp w)))%nat
  ∧ ((∀ n, flowModel w n = true) →
     length (launched (run_calls cid rp w)) = length (created (run_calls cid rp w))).
Proof.
  unfold run_calls. destruct (queue_of w (rp_executionId rp)) as [|np rest].
  - case_bool_decide; simpl; split; (lia || done).
  - split.
    + destruct (flowModel w (np_nodeId np)); simpl; lia.
    + intros Hall. by rewrite Hall.
Qed.

Lemma flowModel_step (cid : nat → string) (i : input) (w : state) :
  flowModel (step cid i w) = flowModel w.
Proof.
  destruct i as [np|rp|rs|data|tp res|rs res|t]; cbn [step].
  - by rewrite addTask_unfold.
  - apply flowModel_run.
  - by rewrite resume_unfold.
  - rewrite next_unfold, flowModel_run, removeTaskFromRunningMap_frame. simpl.
    by rewrite (enqueueOutgoing_frame (nt_executionId data) (nt_outgoing data) w).
  - unfold exec_settled. destruct res as [r|]; [|done].
    case_bool_decide; [|done]. by rewrite removeTaskFromRunningMap_frame.
  - done.
  - done.
Qed.

Lemma flowModel_steps (cid : nat → string) (inputs : list input) (w : state) :
  flowModel (steps cid inputs w) = flowModel w.
Proof.
  induction inputs as [|i inputs IH] using rev_ind; [done|].
  by rewrite steps_snoc, flowModel_step.
Qed.

(** Every input extends the log; it mints a task id for every node it
    pops, and starts the node if the flow model has it. *)
Lemma step_extends_log (cid : nat → string) (i : input) (w : state) :
  ∃ cs, calls (step cid i w) = calls w ++ cs
        ∧ (minted w + length (launched cs) ≤ minted (step cid i w))%nat
        ∧ ((∀ n, flowModel w n = true) →
           minted (step cid i w) = minted w + length (launched cs)).
Proof.
  assert (Hrun : ∀ rp w0,
            (minted w0 + length (launched (run_calls cid rp w0))
             ≤ minted (run cid rp w0))%nat
            ∧ ((∀ n, flowModel w0 n = true) →
               minted (run cid rp w0)
               = minted w0 + length (launched (run_calls cid rp w0)))).
  { intros rp w0. rewrite minted_run.
    destruct (launched_le_created_run_calls cid rp w0) as [Hle Heq].
    split; [lia|]. intros Hall. rewrite (Heq Hall). done. }
  destruct i as [np|rp|rs|data|tp res|rs res|t]; cbn [step].
  - exists []. rewrite addTask_unfold. simpl. rewrite app_nil_r.
    split_and!; [done | lia | intros _; lia].
  - exists (run_calls cid rp w). split; [apply calls_run | apply Hrun].
  - eexists. rewrite resume_unfold. simpl. split; [reflexivity|].
    destruct (flowModel w (rs_nodeId rs)); simpl; split; (lia || (intros _; lia)).
  - eexists. split; [apply calls_next|].
    change (launched (RecorderAddTask ?r :: ?cs)) with (launched cs).
    rewrite next_unfold.
    set (w3 := removeTaskFromRunningMap (asTaskParam data)
                 (saveTaskResult (mkTaskResult data None)
                    (enqueueOutgoing (nt_executionId data) (nt_outgoing data) w))).
    assert (Hm : minted w3 = minted w).
    { unfold w3. rewrite minted_removeTask. simpl.
      by rewrite (enqueueOutgoing_frame (nt_executionId data) (nt_outgoing data) w). }
    assert (Hf : flowModel w3 = flowModel w).
    { unfold w3. rewrite removeTaskFromRunningMap_frame. simpl.
      by rewrite (enqueueOutgoing_frame (nt_executionId data) (nt_outgoing data) w). }
    destruct (Hrun (mkRunParams (nt_executionId data) (Some (nt_nodeId data))
                      (Some (nt_taskId data))) w3) as [Hle Heq].
    rewrite Hm in Hle, Heq. rewrite Hf in Heq. done.
  - destruct res as [r|]; [destruct (decide (ar_status r = INTERRUPTED)) as [Hs|Hs]|].
    + eexists. split; [by apply calls_exec_settled_interrupted|].
      rewrite (proj1 (proj2 (exec_settled_frame tp (Some r) w))). simpl.
      split; [lia | intros _; lia].
    + exists []. unfold exec_settled. rewrite bool_decide_eq_false_2 by done.
      rewrite app_nil_r. simpl. split_and!; [done | lia | intros _; lia].
    + exists []. simpl. rewrite app_nil_r. split_and!; [done | lia | intros _; lia].
  - exists []. unfold resume_settled. simpl. rewrite app_nil_r.
    split_and!; [done | lia | intros _; lia].
  - exists []. simpl. rewrite app_nil_r. split_and!; [done | lia | intros _; lia].
Qed.

(** The log of outgoing calls only grows.  Whatever inputs arrive, the
    calls made so far remain a prefix of the log: no event, no recorder
    call and no node start is ever taken back or reordered. *)
Theorem log_only_grows (cid : nat → string) (inputs : list input) (w : state) :
  calls w `prefix_of` calls (steps cid inputs w)
  ∧ (minted w ≤ minted (steps cid inputs w))%nat.
Proof.
  induction inputs as [|i inputs [IHc IHm]] using rev_ind.
  - split; [done | simpl; lia].
  - rewrite steps_snoc.
    destruct (step_extends_log cid i (steps cid inputs w)) as (cs & Hc & Hm & _).
    split.
    + rewrite Hc. by apply prefix_app_r.
    + lia.
Qed.


(** ** Nothing queued is lost *)

Lemma launched_for_run_calls (cid : nat → string) (rp : RunParams) (w : state)
    (e : string) :
  queues_consistent w →
  launched_for e (run_calls cid rp w)
  = known_nodes w (if bool_decide (e = rp_executionId rp)
                   then take 1 (queue_of w e) else []).
Proof.
  intros Hc. unfold launched_for. rewrite launched_run_calls.
  destruct (queue_of w (rp_executionId rp)) as [|np rest] eqn:Hq.
  - case_bool_decide; [subst e; by rewrite Hq | done].
  - assert (Hnp : np_executionId np = rp_executionId rp).
    { apply Hc. rewrite Hq. by apply elem_of_cons; left. }
    case_bool_decide as He.
    + subst e. rewrite Hq. simpl.
      destruct (flowModel w (np_nodeId np)); [|done].
      by rewrite filter_cons_True.
    + simpl. destruct (flowModel w (np_nodeId np)); [|done].
      rewrite filter_cons_False by congruence. done.
Qed.

(** One launch pops at most the head of the queue, and starts what it
    pops if the flow model has it. *)
Lemma run_pops (cid : nat → string) (rp : RunParams) (w : state) (e : string) :
  queues_consistent w →
  ∃ hd, hd ++ queue_of (run cid rp w) e = queue_of w e
        ∧ launched_for e (run_calls cid rp w) = known_nodes w hd.
Proof.
  intros Hc.
  exists (if bool_decide (e = rp_executionId rp) then take 1 (queue_of w e) else []).
  split; [|by apply launched_for_run_calls].
  rewrite queue_of_run_any. case_bool_decide; [|done].
  by destruct (queue_of w e).
Qed.

Lemma step_pops (cid : nat → string) (i : input) (w : state) (e : string) :
  queues_consistent w →
  ∃ hd, hd ++ queue_of (step cid i w) e = queue_of w e ++ enqueued_by e i
        ∧ launched_for e (calls (step cid i w))
          = launched_for e (calls w) ++ known_nodes w hd.
Proof.
  intros Hc. destruct i as [np|rp|rs|data|tp res|rs res|t]; cbn [step enqueued_by].
  - exists []. rewrite queue_of_addTask_any. split; [done|].
    rewrite addTask_unfold. simpl. by rewrite app_nil_r.
  - destruct (run_pops cid rp w e Hc) as (hd & Hq & Hl).
    exists hd. rewrite app_nil_r, calls_run, launched_for_app, Hl. done.
  - exists []. rewrite resume_unfold. simpl. rewrite app_nil_r. split; [done|].
    rewrite launched_for_app. f_equal.
    by destruct (flowModel w (rs_nodeId rs)).
  - set (w3 := removeTaskFromRunningMap (asTaskParam data)
                 (saveTaskResult (mkTaskResult data None)
                    (enqueueOutgoing (nt_executionId data) (nt_outgoing data) w))).
    assert (Hc3 : queues_consistent w3).
    { refine (queues_consistent_ext (enqueueOutgoing (nt_executionId data)
                                       (nt_outgoing data) w) _ _ _).
      - unfold w3. by rewrite nodeQueueMap_removeTask.
      - by apply queues_consistent_enqueueOutgoing. }
    assert (Hq3 : queue_of w3 e
                  = queue_of w e
                    ++ (if bool_decide (nt_executionId data = e)
                        then map (λ item, mkNodeParam e (target item)) (nt_outgoing data)
                        else [])).
    { unfold w3, queue_of at 1. rewrite nodeQueueMap_removeTask. simpl.
      apply queue_of_enqueueOutgoing_any. }
    assert (Hf : flowModel w3 = flowModel w).
    { unfold w3. rewrite removeTaskFromRunningMap_frame. simpl.
      by rewrite (enqueueOutgoing_frame (nt_executionId data) (nt_outgoing data) w). }
    destruct (run_pops cid (mkRunParams (nt_executionId data) (Some (nt_nodeId data))
                              (Some (nt_taskId data))) w3 e Hc3) as (hd & Hq & Hl).
    exists hd. split.
    + change (next cid data w)
        with (run cid (mkRunParams (nt_executionId data) (Some (nt_nodeId data))
                         (Some (nt_taskId data))) w3).
      by rewrite Hq, Hq3.
    + rewrite calls_next. cbv zeta. fold w3.
      change (calls w ++ ?c :: ?cs) with (calls w ++ [c] ++ cs).
      rewrite !launched_for_app, Hl.
      by rewrite (known_nodes_ext w w3 hd Hf).
  - exists []. rewrite !app_nil_r.
    rewrite (queue_of_ext w (exec_settled tp res w))
      by (by rewrite (proj1 (exec_settled_frame tp res w))).
    split; [done|].
    destruct res as [r|]; [destruct (decide (ar_status r = INTERRUPTED)) as [Hs|Hs]|].
    + rewrite (calls_exec_settled_interrupted tp r w Hs), launched_for_app. simpl.
      by rewrite app_nil_r.
    + unfold exec_settled. by rewrite bool_decide_eq_false_2.
    + done.
  - exists []. by rewrite !app_nil_r.
  - exists []. by rewrite !app_nil_r.
Qed.

Lemma steps_pop (cid : nat → string) (fm : string → bool) (t0 : Z)
    (inputs : list input) (e : string) :
  ∃ popped,
    popped ++ queue_of (steps cid inputs (new fm t0)) e = enqueued e inputs
    ∧ launched_for e (calls (steps cid inputs (new fm t0)))
      = known_nodes (new fm t0) popped.
Proof.
  induction inputs as [|i inputs (popped & Hq & Hl)] using rev_ind.
  - by exists [].
  - rewrite steps_snoc.
    destruct (step_pops cid i (steps cid inputs (new fm t0)) e) as (hd & Hq' & Hl').
    { apply (steps_consistent cid fm t0 inputs). }
    exists (popped ++ hd). split.
    + rewrite <- app_assoc, Hq', app_assoc, Hq.
      unfold enqueued. rewrite map_app, concat_app. simpl. by rewrite app_nil_r.
    + rewrite Hl', Hl, known_nodes_app. f_equal.
      apply known_nodes_ext. by rewrite flowModel_steps.
Qed.

(** X2: nothing queued is lost, duplicated or reordered.  After any history
    since construction, and for every instance, the nodes enqueued for it
    (by [addTask] or by the outgoing edges of a continuation) are, in
    enqueuing order, the nodes popped so far followed by the nodes still
    queued; and the nodes started so far are, in the same order, the popped
    nodes that the flow model has.  If the flow model has every enqueued
    node, the started nodes followed by the queued nodes are exactly the
    enqueued nodes. *)
Theorem enqueued_nodes_started_in_order (cid : nat → string)
    (fm : string → bool) (t0 : Z)
    (inputs : list input) (e : string) :
  let w := steps cid inputs (new fm t0) in
  (∃ popped, popped ++ queue_of w e = enqueued e inputs
             ∧ launched_for e (calls w) = known_nodes w popped)
  ∧ (Forall (λ np, fm (np_nodeId np) = true) (enqueued e inputs) →
     launched_for e (calls w) ++ queue_of w e = enqueued e inputs).
Proof.
  cbv zeta. destruct (steps_pop cid fm t0 inputs e) as (popped & Hq & Hl).
  split.
  - exists popped. split; [done|]. rewrite Hl.
    symmetry. apply known_nodes_ext. by rewrite flowModel_steps.
  - intros Hall. rewrite <- Hq in Hall. apply Forall_app in Hall as [Hp _].
    rewrite Hl, known_nodes_all; done.
Qed.

(** ** One settlement, one launch *)

(** X5: a continuation pops at most one node, whatever the number of its
    outgoing edges: the node at the head of the instance's queue once the
    outgoing targets have been appended.  [createTask] is called for that
    node and, if the flow model has it, its [execute] is started;
    everything behind it stays queued until some later launch. *)
Theorem next_starts_head_only (cid : nat → string) (data : NextTaskParam) (w : state) :
  let e := nt_executionId data in
  let q := queue_of w e ++ map (λ item, mkNodeParam e (target item)) (nt_outgoing data) in
  created (new_calls w (next cid data w)) = map np_nodeId (take 1 q)
  ∧ launched (new_calls w (next cid data w)) = known_nodes w (take 1 q)
  ∧ queue_of (next cid data w) e = drop 1 q.
Proof.
  intros e q.
  set (w3 := removeTaskFromRunningMap (asTaskParam data)
               (saveTaskResult (mkTaskResult data None)
                  (enqueueOutgoing e (nt_outgoing data) w))).
  assert (Hq : queue_of w3 e = q).
  { unfold w3, queue_of at 1. rewrite nodeQueueMap_removeTask. simpl.
    apply queue_of_enqueueOutgoing. }
  assert (Hf : flowModel w3 = flowModel w).
  { unfold w3. rewrite removeTaskFromRunningMap_frame. simpl.
    by rewrite (enqueueOutgoing_frame e (nt_outgoing data) w). }
  split_and!.
  - rewrite (new_calls_app _ _ _ (calls_next cid data w)).
    change (created (RecorderAddTask ?r :: ?cs)) with (created cs).
    rewrite created_run_calls. simpl. fold e w3. by rewrite Hq.
  - rewrite (new_calls_app _ _ _ (calls_next cid data w)).
    change (launched (RecorderAddTask ?r :: ?cs)) with (launched cs).
    rewrite launched_run_calls. simpl. fold e w3. rewrite Hq.
    by apply known_nodes_ext.
  - change (next cid data w)
      with (run cid (mkRunParams e (Some (nt_nodeId data)) (Some (nt_taskId data))) w3).
    pose proof (queue_of_run cid (mkRunParams e (Some (nt_nodeId data))
                                   (Some (nt_taskId data)))) as Hr.
    simpl in Hr. rewrite Hr, Hq. by destruct q.
Qed.

(** ** Completion, again and never *)

Lemma completions_app (cs cs' : list Call) :
  completions (cs ++ cs') = completions cs ++ completions cs'.
Proof. apply omap_app. Qed.

Lemma idle_runs (cid : nat → string) (rp : RunParams) (w : state) (k : nat) :
  queue_of w (rp_executionId rp) = [] →
  running_of w (rp_executionId rp) = ∅ →
  ∃ cs, calls (Nat.iter k (run cid rp) w) = calls w ++ cs
        ∧ completions cs
          = replicate k (mkComplete (rp_executionId rp) (rp_nodeId rp) (rp_taskId rp)
                                    COMPLETED)
        ∧ launched cs = []
        ∧ queue_of (Nat.iter k (run cid rp) w) (rp_executionId rp) = []
        ∧ running_of (Nat.iter k (run cid rp) w) (rp_executionId rp) = ∅.
Proof.
  intros Hq Hr. induction k as [|k (cs & Hc & Hcs & Hl & Hq' & Hr')].
  - exists []. simpl. by rewrite app_nil_r.
  - change (Nat.iter (S k) (run cid rp) w) with (run cid rp (Nat.iter k (run cid rp) w)).
    exists (cs ++ run_calls cid rp (Nat.iter k (run cid rp) w)).
    rewrite calls_run, Hc, app_assoc, completions_app, launched_app, Hcs, Hl.
    rewrite queue_of_run, Hq', running_of_run, Hq', Hr'.
    unfold run_calls. rewrite Hq', Hr', bool_decide_eq_true_2 by done.
    split_and!; try done.
    simpl. clear. induction k as [|k IH]; [done|]. simpl. by rewrite IH.
Qed.

(** X6: completion is announced by every launch that finds the instance
    idle, not once per instance: [k] launches of an instance with an empty
    queue and an empty registry emit [k] instance-complete events (and
    start nothing). *)
Theorem idle_instance_completes_on_every_run (cid : nat → string) (rp : RunParams)
    (w : state) (k : nat) :
  queue_of w (rp_executionId rp) = [] →
  running_of w (rp_executionId rp) = ∅ →
  completions (new_calls w (Nat.iter k (run cid rp) w))
  = replicate k (mkComplete (rp_executionId rp) (rp_nodeId rp) (rp_taskId rp) COMPLETED)
  ∧ launched (new_calls w (Nat.iter k (run cid rp) w)) = [].
Proof.
  intros Hq Hr. destruct (idle_runs cid rp w k Hq Hr) as (cs & Hc & Hcs & Hl & _).
  by rewrite (new_calls_app _ _ _ Hc).
Qed.



(** ** Instances do not interfere *)

Lemma taskRunningMap_push_ne (tp : TaskParam) (w : state) (e : string) :
  e ≠ tp_executionId tp →
  taskRunningMap (pushTaskToRunningMap tp w) !! e = taskRunningMap w !! e.
Proof.
  intros Hne. rewrite pushTaskToRunningMap_unfold. simpl. by rewrite lookup_insert_ne.
Qed.

Lemma taskRunningMap_run_ne (cid : nat → string) (rp : RunParams) (w : state)
    (e : string) :
  queues_consistent w → e ≠ rp_executionId rp →
  taskRunningMap (run cid rp w) !! e = taskRunningMap w !! e.
Proof.
  intros Hc Hne.
  destruct (queue_of w (rp_executionId rp)) as [|np rest] eqn:Hq.
  - destruct (decide (running_of w (rp_executionId rp) = ∅)) as [Hr|Hr].
    + rewrite (run_complete _ _ _ Hq Hr). simpl. by rewrite lookup_delete_ne.
    + by rewrite (run_wait _ _ _ Hq Hr).
  - assert (Hnp : np_executionId np = rp_executionId rp).
    { apply Hc. rewrite Hq. by apply elem_of_cons; left. }
    rewrite (run_launch _ _ _ _ _ Hq).
    rewrite taskRunningMap_exec.
    rewrite taskRunningMap_push_ne; [done|]. simpl. congruence.
Qed.

Lemma step_isolated (cid : nat → string) (i : input) (w : state) (e : string) :
  queues_consistent w → instance_of i ≠ Some e →
  nodeQueueMap (step cid i w) !! e = nodeQueueMap w !! e
  ∧ taskRunningMap (step cid i w) !! e = taskRunningMap w !! e.
Proof.
  intros Hc Hi.
  destruct i as [np|rp|rs|data|tp res|rs res|t]; cbn [step]; simpl in Hi;
    try (assert (Hne : ∀ x, Some x ≠ Some e → e ≠ x) by (intros x ? ->; done)).
  - split; [apply queue_of_addTask_ne; auto | by rewrite addTask_unfold].
  - split; [apply nodeQueueMap_run_ne; auto | apply taskRunningMap_run_ne; auto].
  - rewrite resume_unfold. simpl. split; [done|].
    rewrite lookup_insert_ne; [done|]. intros Heq. by apply (Hne _ Hi).
  - rewrite next_unfold. split.
    + rewrite nodeQueueMap_run_ne by (simpl; auto).
      rewrite nodeQueueMap_removeTask. simpl.
      apply nodeQueueMap_enqueueOutgoing_ne. auto.
    + rewrite taskRunningMap_run_ne; [| |simpl; auto].
      * rewrite taskRunningMap_removeTask_ne by (simpl; auto). simpl.
        by rewrite (enqueueOutgoing_frame (nt_executionId data) (nt_outgoing data) w).
      * refine (queues_consistent_ext (enqueueOutgoing (nt_executionId data)
                                         (nt_outgoing data) w) _ _ _).
        -- by rewrite nodeQueueMap_removeTask.
        -- by apply queues_consistent_enqueueOutgoing.
  - split; [by rewrite (proj1 (exec_settled_frame tp res w))|].
    unfold exec_settled. destruct res as [r|]; [|done].
    case_bool_decide; [|done].
    rewrite taskRunningMap_removeTask_ne by auto. done.
  - done.
  - done.
Qed.

(** X8: instances do not interfere.  In any state the dispatcher can reach,
    an input addressed to one instance leaves the ready-queue entry and the
    running-registry entry of every other instance exactly as they were. *)
Theorem step_leaves_other_instances (cid : nat → string)
    (fm : string → bool) (t0 : Z)
    (inputs : list input) (i : input) (e : string) :
  instance_of i ≠ Some e →
  let w := steps cid inputs (new fm t0) in
  nodeQueueMap (step cid i w) !! e = nodeQueueMap w !! e
  ∧ taskRunningMap (step cid i w) !! e = taskRunningMap w !! e.
Proof.
  intros Hi w. apply step_isolated; [|done].
  apply (steps_consistent cid fm t0 inputs).
Qed.

(** ** The running registry *)

(** X9: [hasRunningTask] answers whether the registry of the instance is
    non-empty.  Its only write is the eviction of an empty registry entry,
    which no reader of the registries can tell from the state before; the
    queues, the id supply and the log are not touched. *)
Theorem hasRunningTask_only_evicts (e : string) (w : state) :
  fst (hasRunningTask e w) = bool_decide (running_of w e ≠ ∅)
  ∧ (∀ e', running_of (snd (hasRunningTask e w)) e' = running_of w e')
  ∧ (fst (hasRunningTask e w) = false →
       taskRunningMap (snd (hasRunningTask e w)) !! e = None)
  ∧ nodeQueueMap (snd (hasRunningTask e w)) = nodeQueueMap w
  ∧ minted (snd (hasRunningTask e w)) = minted w
  ∧ calls (snd (hasRunningTask e w)) = calls w.
Proof.
  destruct (decide (running_of w e = ∅)) as [Hr|Hr].
  - rewrite (hasRunningTask_empty _ _ Hr). simpl.
    rewrite bool_decide_eq_false_2 by (intros H; by apply H).
    split_and!; try done.
    + intros e'. unfold running_of at 1. simpl.
      destruct (decide (e' = e)) as [->|Hne].
      * by rewrite lookup_delete_eq.
      * by rewrite lookup_delete_ne.
    + intros _. apply lookup_delete_eq.
  - rewrite (hasRunningTask_busy _ _ Hr). simpl.
    by rewrite bool_decide_eq_true_2.
Qed.

(** X10: registering a task and removing it again.  For a task with a
    non-empty id, [removeTaskFromRunningMap] after [pushTaskToRunningMap]
    leaves the registry of the instance without that id and otherwise as it
    was (unchanged altogether if the id was not registered before); other
    instances are untouched.  The entry of the instance itself stays in the
    map, possibly empty. *)
Theorem register_then_remove (tp : TaskParam) (w : state) :
  tp_taskId tp ≠ EmptyString →
  let w' := removeTaskFromRunningMap tp (pushTaskToRunningMap tp w) in
  running_of w' (tp_executionId tp)
  = delete (tp_taskId tp) (running_of w (tp_executionId tp))
  ∧ (running_of w (tp_executionId tp) !! tp_taskId tp = None →
       running_of w' (tp_executionId tp) = running_of w (tp_executionId tp))
  ∧ (∀ e', e' ≠ tp_executionId tp → taskRunningMap w' !! e' = taskRunningMap w !! e')
  ∧ is_Some (taskRunningMap w' !! tp_executionId tp).
Proof.
  intros Ht w'. apply truthy_true in Ht.
  assert (Hr : running_of w' (tp_executionId tp)
               = delete (tp_taskId tp) (running_of w (tp_executionId tp))).
  { unfold w'. rewrite running_of_removeTask, Ht, running_of_push.
    rewrite bool_decide_eq_true_2 by done. by rewrite delete_insert_eq. }
  split_and!.
  - exact Hr.
  - intros Hn. rewrite Hr. by apply delete_id.
  - intros e' Hne. unfold w'.
    by rewrite taskRunningMap_removeTask_ne, taskRunningMap_push_ne.
  - unfold w', removeTaskFromRunningMap. rewrite Ht. simpl.
    rewrite pushTaskToRunningMap_unfold. simpl. rewrite lookup_insert_eq. simpl.
    rewrite lookup_insert_eq. eauto.
Qed.

(** ** Suspension and resumption of the only branch *)

Lemma running_of_call (c : Call) (w : state) (e : string) :
  running_of (call c w) e = running_of w e.
Proof. reflexivity. Qed.

Lemma queue_of_call (c : Call) (w : state) (e : string) :
  queue_of (call c w) e = queue_of w e.
Proof. reflexivity. Qed.

Lemma queue_of_remove (tp : TaskParam) (w : state) (e : string) :
  queue_of (removeTaskFromRunningMap tp w) e = queue_of w e.
Proof. apply queue_of_ext. by rewrite nodeQueueMap_removeTask. Qed.

Lemma queue_of_push (tp : TaskParam) (w : state) (e : string) :
  queue_of (pushTaskToRunningMap tp w) e = queue_of w e.
Proof. by rewrite pushTaskToRunningMap_unfold. Qed.

(** X11: the life of a branch that suspends once.  An instance has one
    queued node and nothing running.  The node is launched and its
    [execute] resolves to an INTERRUPTED result: the interruption is
    announced and the instance is left with nothing queued and nothing
    registered, yet not completed.  A [resume] for that task followed by its
    continuation (no outgoing edge) then completes the instance: over the
    whole life the node is started once (its [execute] is called once
    [createTask] has returned), two records are handed to the recorder (one
    per settlement, both under the same task id), and the events are the
    interruption followed by one completion that names the node and the
    task. *)
Theorem interrupt_resume_lifecycle (cid : nat → string) (np : NodeParam)
    (r : ActionResult) (lastNode lastTask : option string) (input : option Payload)
    (nodeType : string) (props : option Payload) (w : state) :
  let e := np_executionId np in
  let n := np_nodeId np in
  let t := cid (minted w) in
  let w1 := run cid (mkRunParams e lastNode lastTask) w in
  let w2 := exec_settled (mkTaskParam e n t) (Some r) w1 in
  let w3 := resume (mkResumeParam e n t input) w2 in
  let w4 := next cid (mkNext e n t nodeType [] props) w3 in
  t ≠ EmptyString →
  queue_of w e = [np] →
  running_of w e = ∅ →
  ar_status r = INTERRUPTED →
  emitted (new_calls w w2)
  = [EVENT_INSTANCE_INTERRUPTED (mkInterrupted e INTERRUPTED n t (ar_detail r))]
  ∧ queue_of w2 e = [] ∧ running_of w2 e = ∅
  ∧ emitted (new_calls w w4)
    = [EVENT_INSTANCE_INTERRUPTED (mkInterrupted e INTERRUPTED n t (ar_detail r));
       EVENT_INSTANCE_COMPLETE (mkComplete e (Some n) (Some t) COMPLETED)]
  ∧ launched (new_calls w w4) = known_nodes w [np]
  ∧ map rd_taskId (recorded (new_calls w w4)) = [t; t]
  ∧ queue_of w4 e = [] ∧ taskRunningMap w4 !! e = None.
Proof.
  intros e n t w1 w2 w3 w4 Ht Hq Hr Hs.
  apply truthy_true in Ht.
  set (tp := mkTaskParam e n t).
  (* launch *)
  assert (Hc1 : calls w1
                = calls w
                  ++ CreateTask n
                     :: (if flowModel w n then [ModelExecute (mkExecuteParam e t n)]
                         else [])).
  { unfold w1. rewrite calls_run. unfold run_calls. simpl. by rewrite Hq. }
  assert (Hf2 : flowModel w2 = flowModel w).
  { pose proof (flowModel_step cid (ExecSettled (mkTaskParam e n t) (Some r)) w1) as H.
    cbn [step] in H. unfold w2. rewrite H. apply flowModel_run. }
  assert (Hq1 : queue_of w1 e = []).
  { pose proof (queue_of_run cid (mkRunParams e lastNode lastTask) w) as H.
    simpl in H. unfold w1. by rewrite H, Hq. }
  assert (Hr1 : running_of w1 e = <[t := tp]> ∅).
  { unfold w1. rewrite running_of_run. simpl. rewrite Hq.
    rewrite bool_decide_eq_true_2 by done. by rewrite Hr. }
  (* interruption *)
  assert (Hc2 : calls w2 = calls w1
                 ++ [Emit (EVENT_INSTANCE_INTERRUPTED (interruptionEvent tp r));
                     RecorderAddTask (interruptionRecord tp r (now w1))]).
  { by apply calls_exec_settled_interrupted. }
  assert (Hq2 : queue_of w2 e = []).
  { unfold w2. rewrite (queue_of_ext w1); [done|].
    by rewrite (proj1 (exec_settled_frame _ _ _)). }
  assert (Hr2 : running_of w2 e = ∅).
  { unfold w2. rewrite (exec_settled_interrupted _ _ _ Hs).
    pose proof (running_of_removeTask tp) as H. simpl in H. rewrite H, Ht.
    rewrite !running_of_call, Hr1. by rewrite delete_insert_eq, delete_empty. }
  (* resumption *)
  assert (Hc3 : calls w3
                = calls w2
                  ++ CreateTask n
                     :: (if flowModel w n then [ModelResume (mkResumeParam e n t input)]
                         else [])).
  { unfold w3. rewrite resume_unfold. simpl. by rewrite Hf2. }
  assert (Hq3 : queue_of w3 e = []).
  { unfold w3. rewrite resume_unfold. exact Hq2. }
  assert (Hr3 : running_of w3 e = <[t := tp]> ∅).
  { unfold w3. rewrite resume_unfold. unfold running_of at 1. simpl.
    rewrite lookup_insert_eq. simpl. by rewrite Hr2. }
  (* continuation *)
  set (rec2 := mkRecorderData e t n nodeType (now w3) props None).
  set (w3' := removeTaskFromRunningMap tp (call (RecorderAddTask rec2) w3)).
  assert (Hw4 : w4 = run cid (mkRunParams e (Some n) (Some t)) w3') by reflexivity.
  assert (Hq3' : queue_of w3' e = []).
  { unfold w3'. by rewrite queue_of_remove, queue_of_call. }
  assert (Hr3' : running_of w3' e = ∅).
  { unfold w3'. pose proof (running_of_removeTask tp) as H. simpl in H.
    rewrite H, Ht, running_of_call, Hr3. by rewrite delete_insert_eq, delete_empty. }
  assert (Hc4 : calls w4 = calls w3
                 ++ [RecorderAddTask rec2;
                     Emit (EVENT_INSTANCE_COMPLETE
                             (mkComplete e (Some n) (Some t) COMPLETED))]).
  { rewrite Hw4, (run_complete cid (mkRunParams e (Some n) (Some t)) w3' Hq3' Hr3').
    unfold w3'. simpl. rewrite calls_removeTask. simpl. by rewrite <- app_assoc. }
  assert (Hnp : mkNodeParam e n = np) by (by destruct np).
  split_and!.
  - erewrite new_calls_app; [|by rewrite Hc2, Hc1, <- app_assoc].
    by destruct (flowModel w n).
  - exact Hq2.
  - exact Hr2.
  - erewrite new_calls_app;
      [|by rewrite Hc4, Hc3, Hc2, Hc1, <- !app_assoc].
    by destruct (flowModel w n).
  - erewrite new_calls_app;
      [|by rewrite Hc4, Hc3, Hc2, Hc1, <- !app_assoc].
    unfold known_nodes. simpl. fold n.
    destruct (flowModel w n); simpl; by rewrite ?Hnp.
  - erewrite new_calls_app;
      [|by rewrite Hc4, Hc3, Hc2, Hc1, <- !app_assoc].
    by destruct (flowModel w n).
  - rewrite Hw4.
    pose proof (queue_of_run cid (mkRunParams e (Some n) (Some t)) w3') as H.
    simpl in H. by rewrite H, Hq3'.
  - rewrite Hw4, (run_complete cid (mkRunParams e (Some n) (Some t)) w3' Hq3' Hr3').
    simpl. apply lookup_delete_eq.
Qed.

(** ** Completion is sound *)

Lemma completion_from_run (cid : nat → string) (rp : RunParams) (w : state)
    (p : CompletePayload) :
  p ∈ completions (run_calls cid rp w) →
  cp_executionId p = rp_executionId rp
  ∧ queue_of (run cid rp w) (rp_executionId rp) = []
  ∧ running_of (run cid rp w) (rp_executionId rp) = ∅.
Proof.
  rewrite queue_of_run, running_of_run. unfold run_calls.
  destruct (queue_of w (rp_executionId rp)) as [|np rest].
  - case_bool_decide as Hr; simpl.
    + intros ->%list_elem_of_singleton. done.
    + intros Hin. by apply elem_of_nil in Hin.
  - simpl. destruct (flowModel w (np_nodeId np)); intros Hin; by apply elem_of_nil in Hin.
Qed.

Lemma completion_from_step (cid : nat → string) (i : input) (w : state)
    (p : CompletePayload) :
  p ∈ completions (new_calls w (step cid i w)) →
  queue_of (step cid i w) (cp_executionId p) = []
  ∧ running_of (step cid i w) (cp_executionId p) = ∅.
Proof.
  destruct i as [np|rp|rs|data|tp res|rs res|t]; cbn [step].
  - rewrite (new_calls_app _ _ []) by (by rewrite addTask_unfold, app_nil_r).
    intros Hin. by apply elem_of_nil in Hin.
  - rewrite new_calls_run. intros (-> & Hq & Hr)%completion_from_run. done.
  - erewrite new_calls_app; [|by rewrite resume_unfold].
    destruct (flowModel w (rs_nodeId rs)); intros Hin; by apply elem_of_nil in Hin.
  - rewrite (new_calls_app _ _ _ (calls_next cid data w)).
    change (completions (RecorderAddTask ?r :: ?cs)) with (completions cs).
    intros (-> & Hq & Hr)%completion_from_run. rewrite next_unfold. done.
  - destruct res as [r|]; [destruct (decide (ar_status r = INTERRUPTED)) as [Hs|Hs]|].
    + rewrite (new_calls_app _ _ _ (calls_exec_settled_interrupted tp r w Hs)).
      intros Hin. by apply elem_of_nil in Hin.
    + rewrite (new_calls_app _ _ []).
      * intros Hin. by apply elem_of_nil in Hin.
      * unfold exec_settled. rewrite bool_decide_eq_false_2 by done.
        by rewrite app_nil_r.
    + rewrite (new_calls_app _ _ []) by (by rewrite app_nil_r).
      intros Hin. by apply elem_of_nil in Hin.
  - rewrite (new_calls_app _ _ []) by (by rewrite app_nil_r).
    intros Hin. by apply elem_of_nil in Hin.
  - rewrite (new_calls_app _ _ []) by (by rewrite app_nil_r).
    intros Hin. by apply elem_of_nil in Hin.
Qed.

(** X3: completion is never announced with work left in the dispatcher.
    Whenever an input makes the dispatcher emit instance-complete for an
    instance, then in the state it leaves behind the queue of that instance
    is empty, its registry is empty, and the nodes started for the instance
    are, in enqueuing order, all the nodes ever enqueued for it that the
    flow model has (a node whose [createTask] throws was popped and is
    never started). *)
Theorem completion_means_all_started_and_settled (cid : nat → string)
    (fm : string → bool) (t0 : Z)
    (inputs : list input) (i : input) (p : CompletePayload) :
  let w := steps cid inputs (new fm t0) in
  p ∈ completions (new_calls w (step cid i w)) →
  queue_of (step cid i w) (cp_executionId p) = []
  ∧ running_of (step cid i w) (cp_executionId p) = ∅
  ∧ launched_for (cp_executionId p) (calls (step cid i w))
    = known_nodes w (enqueued (cp_executionId p) (inputs ++ [i])).
Proof.
  intros w Hin. destruct (completion_from_step cid i w p Hin) as [Hq Hr].
  split_and!; [done|done|].
  destruct (steps_pop cid fm t0 (inputs ++ [i]) (cp_executionId p))
    as (popped & Hp & Hl).
  rewrite steps_snoc in Hp, Hl. fold w in Hp, Hl.
  rewrite Hq, app_nil_r in Hp. subst popped. rewrite Hl.
  symmetry. apply known_nodes_ext. unfold w. by rewrite flowModel_steps.
Qed.

(** ** Closed instances *)

Lemma completion_means_all_started_and_settled_witness :
  launched_for "e1" (calls (steps sampleIds oneNodeFlow (new allNodes 0))) = [nodeA].
Proof.
  refine (proj2 (proj2 (completion_means_all_started_and_settled sampleIds allNodes 0
                          [CallAddTask nodeA; CallRun runE1]
                          (CallNext (mkNext "e1" "A" "task" "start" [] None))
                          (mkComplete "e1" (Some "A") (Some "task") COMPLETED) _))).
  vm_compute. apply list_elem_of_here.
Defined.

Lemma idle_instance_completes_on_every_run_witness :
  completions (new_calls (new allNodes 0) (Nat.iter 3 (run sampleIds runE2) (new allNodes 0)))
  = replicate 3 (mkComplete "e2" None None COMPLETED).
Proof.
  exact (proj1 (idle_instance_completes_on_every_run sampleIds runE2 (new allNodes 0) 3
                  eq_refl eq_refl)).
Defined.



Lemma step_leaves_other_instances_witness :
  nodeQueueMap (step sampleIds (CallRun runE2) (steps sampleIds [CallAddTask nodeA] (new allNodes 0)))
    !! "e1"
  = nodeQueueMap (steps sampleIds [CallAddTask nodeA] (new allNodes 0)) !! "e1".
Proof.
  refine (proj1 (step_leaves_other_instances sampleIds allNodes 0 [CallAddTask nodeA]
                   (CallRun runE2) "e1" _)).
  simpl. discriminate.
Defined.

Lemma register_then_remove_witness :
  running_of (removeTaskFromRunningMap taskA (pushTaskToRunningMap taskA (new allNodes 0))) "e1"
  = delete "task" (running_of (new allNodes 0) "e1").
Proof.
  refine (proj1 (register_then_remove taskA (new allNodes 0) _)).
  simpl. discriminate.
Defined.

Lemma interrupt_resume_lifecycle_witness :
  let w := addTask nodeA (new allNodes 0) in
  let w2 := exec_settled taskA (Some suspended) (run sampleIds runE1 w) in
  let w4 := next sampleIds (mkNext "e1" "A" "task" "form" [] None)
              (resume (mkResumeParam "e1" "A" "task" None) w2) in
  emitted (new_calls w w4)
  = [EVENT_INSTANCE_INTERRUPTED
       (mkInterrupted "e1" INTERRUPTED "A" "task" (Some "{formId: 42}"));
     EVENT_INSTANCE_COMPLETE (mkComplete "e1" (Some "A") (Some "task") COMPLETED)].
Proof.
  cbv zeta.
  assert (Hid : sampleIds (minted (addTask nodeA (new allNodes 0))) ≠ EmptyString)
    by discriminate.
  destruct (interrupt_resume_lifecycle sampleIds nodeA suspended None None None
              "form" None (addTask nodeA (new allNodes 0)) Hid eq_refl eq_refl eq_refl)
    as (_ & _ & _ & Hev & _).
  exact Hev.
Defined.

End SchedulerExtra.

(** * Further properties of the recorder *)

Module RecorderExtra.
Import Recorder Samples MoreSamples History.

Lemma addTask_fresh (task : RecorderData) (s : storage) (instance : list string) :
  s !! rd_executionId task = None →
  orEmpty (s !! LOGICFLOW_ENGINE_INSTANCES) = Some instance →
  addTask task s
  = Some (<[rd_taskId task := ItemTask task]>
            (<[rd_executionId task := ItemList [rd_taskId task]]>
               (<[LOGICFLOW_ENGINE_INSTANCES := ItemList (instance ++ [rd_executionId task])]>
                  s))).
Proof.
  intros He Hi. unfold addTask, addTask_settled, getExecutionTasks, getItem, setItem.
  rewrite He, Hi. reflexivity.
Qed.

Lemma addTask_known (task : RecorderData) (s : storage) (ids : list string) :
  s !! rd_executionId task = Some (ItemList ids) →
  addTask task s
  = Some (<[rd_taskId task := ItemTask task]>
            (<[rd_executionId task := ItemList (ids ++ [rd_taskId task])]> s)).
Proof.
  intros He. unfold addTask, addTask_settled, getExecutionTasks, getItem, setItem.
  by rewrite He.
Qed.

(** The cases of [addTask]. *)
Lemma addTask_cases (task : RecorderData) (s : storage) :
  (∃ ids, s !! rd_executionId task = Some (ItemList ids))
  ∨ (∃ instance, s !! rd_executionId task = None
                 ∧ orEmpty (s !! LOGICFLOW_ENGINE_INSTANCES) = Some instance)
  ∨ (addTask task s = None
     ∧ ((∃ r, s !! rd_executionId task = Some (ItemTask r))
        ∨ (s !! rd_executionId task = None
           ∧ ∃ r, s !! LOGICFLOW_ENGINE_INSTANCES = Some (ItemTask r)))).
Proof.
  unfold addTask, addTask_settled, getExecutionTasks, getItem.
  destruct (s !! rd_executionId task) as [[ids|r]|] eqn:He.
  - left. eauto.
  - right. right. split; [done|]. left. eauto.
  - destruct (s !! LOGICFLOW_ENGINE_INSTANCES) as [[instance|r]|] eqn:Hi; simpl.
    + right. left. eauto.
    + right. right. split; [done|]. right. eauto.
    + right. left. eauto.
Qed.

(** X12: what a successful [addTask] leaves in the storage.  The record can
    be read back under its task id; unless the task id equals the execution
    id, the index of the instance is the former index (empty if there was
    none) with the task id appended; and no key other than the task id, the
    execution id and the instance list is written. *)
Theorem addTask_round_trip (task : RecorderData) (s s' : storage) :
  addTask task s = Some s' →
  getTask (rd_taskId task) s' = Some (ItemTask task)
  ∧ (rd_taskId task ≠ rd_executionId task →
       ∃ ids, orEmpty (getExecutionTasks (rd_executionId task) s) = Some ids
              ∧ getExecutionTasks (rd_executionId task) s'
                = Some (ItemList (ids ++ [rd_taskId task])))
  ∧ (∀ k, k ≠ rd_taskId task → k ≠ rd_executionId task →
          k ≠ LOGICFLOW_ENGINE_INSTANCES → getItem k s' = getItem k s).
Proof.
  intros Hadd. unfold getTask, getExecutionTasks, getItem.
  destruct (addTask_cases task s) as [[ids He]|[(instance & He & Hi)|[Hn _]]].
  - rewrite (addTask_known _ _ _ He) in Hadd. injection Hadd as <-.
    split_and!.
    + apply lookup_insert_eq.
    + intros Hne. exists ids. rewrite He. split; [done|].
      rewrite lookup_insert_ne by done. apply lookup_insert_eq.
    + intros k H1 H2 _. by rewrite !lookup_insert_ne.
  - rewrite (addTask_fresh _ _ _ He Hi) in Hadd. injection Hadd as <-.
    split_and!.
    + apply lookup_insert_eq.
    + intros Hne. exists []. rewrite He. split; [done|].
      rewrite lookup_insert_ne by done. apply lookup_insert_eq.
    + intros k H1 H2 H3. by rewrite !lookup_insert_ne.
  - congruence.
Qed.

(** X13: when [addTask] throws.  It fails exactly when the key of the
    execution id holds a task record, or when the instance has no index yet
    and the key of the instance list holds a task record: in both cases an
    array method is called on an object that is not an array. *)
Theorem addTask_throws_iff (task : RecorderData) (s : storage) :
  addTask task s = None ↔
  (∃ r, getItem (rd_executionId task) s = Some (ItemTask r))
  ∨ (getItem (rd_executionId task) s = None
     ∧ ∃ r, getItem LOGICFLOW_ENGINE_INSTANCES s = Some (ItemTask r)).
Proof.
  unfold getItem. split.
  - intros Hn.
    destruct (addTask_cases task s) as [[ids He]|[(instance & He & Hi)|[_ H]]].
    + by rewrite (addTask_known _ _ _ He) in Hn.
    + by rewrite (addTask_fresh _ _ _ He Hi) in Hn.
    + exact H.
  - unfold addTask, addTask_settled, getExecutionTasks, getItem.
    intros [[r He]|[He [r Hi]]]; rewrite He; [done|]. by rewrite Hi.
Qed.

(** X14: execution ids and task ids share one key space.  Once a task has
    been recorded, recording anything for an execution id equal to that
    task's id throws. *)
Theorem addTask_rejects_task_id_as_execution_id (task1 task2 : RecorderData)
    (s s' : storage) :
  addTask task1 s = Some s' →
  rd_executionId task2 = rd_taskId task1 →
  addTask task2 s' = None.
Proof.
  intros Hadd Heq.
  assert (Hs : s' !! rd_taskId task1 = Some (ItemTask task1)).
  { destruct (addTask_cases task1 s) as [[ids He]|[(instance & He & Hi)|[Hn _]]].
    - rewrite (addTask_known _ _ _ He) in Hadd. injection Hadd as <-.
      apply lookup_insert_eq.
    - rewrite (addTask_fresh _ _ _ He Hi) in Hadd. injection Hadd as <-.
      apply lookup_insert_eq.
    - congruence. }
  unfold addTask, addTask_settled, getExecutionTasks, getItem.
  by rewrite Heq, Hs.
Qed.

(** X15: an instance is entered in the instance list once, by the first
    task recorded for it.  (Task id and execution id are assumed not to be
    the key of the instance list itself.) *)
Theorem addTask_registers_instance_once (task : RecorderData) (s s' : storage) :
  addTask task s = Some s' →
  rd_taskId task ≠ LOGICFLOW_ENGINE_INSTANCES →
  rd_executionId task ≠ LOGICFLOW_ENGINE_INSTANCES →
  (is_Some (getExecutionTasks (rd_executionId task) s) →
     getItem LOGICFLOW_ENGINE_INSTANCES s' = getItem LOGICFLOW_ENGINE_INSTANCES s)
  ∧ (getExecutionTasks (rd_executionId task) s = None →
     ∃ instance, orEmpty (getItem LOGICFLOW_ENGINE_INSTANCES s) = Some instance
                 ∧ getItem LOGICFLOW_ENGINE_INSTANCES s'
                   = Some (ItemList (instance ++ [rd_executionId task]))).
Proof.
  intros Hadd Ht Hx. unfold getExecutionTasks, getItem.
  destruct (addTask_cases task s) as [[ids He]|[(instance & He & Hi)|[Hn _]]].
  - rewrite (addTask_known _ _ _ He) in Hadd. injection Hadd as <-.
    split; [|by rewrite He].
    intros _. by rewrite !lookup_insert_ne.
  - rewrite (addTask_fresh _ _ _ He Hi) in Hadd. injection Hadd as <-.
    split; [rewrite He; by intros [? ?]|].
    intros _. exists instance. split; [done|].
    rewrite !lookup_insert_ne by done. apply lookup_insert_eq.
  - congruence.
Qed.

(** ** Recording in sequence *)

Lemma addTasks_failed (tasks : list RecorderData) :
  foldl (λ acc task, acc ≫= addTask task) None tasks = None.
Proof. induction tasks as [|task tasks IH]; [done|]. simpl. exact IH. Qed.

Lemma addTasks_cons (task : RecorderData) (tasks : list RecorderData) (s : storage) :
  addTasks (task :: tasks) s = addTask task s ≫= addTasks tasks.
Proof.
  unfold addTasks. simpl. destruct (addTask task s) as [s1|]; simpl; [done|].
  apply addTasks_failed.
Qed.

Lemma addTasks_known (e : string) (tasks : list RecorderData) (s : storage)
    (ids : list string) :
  tasks_of e tasks →
  s !! e = Some (ItemList ids) →
  ∃ s', addTasks tasks s = Some s'
        ∧ s' !! e = Some (ItemList (ids ++ map rd_taskId tasks))
        ∧ (∀ k, k ≠ e → k ∉ map rd_taskId tasks → s' !! k = s !! k)
        ∧ (NoDup (map rd_taskId tasks) →
           ∀ task, task ∈ tasks → s' !! rd_taskId task = Some (ItemTask task)).
Proof.
  intros Hall. revert s ids.
  induction Hall as [|task tasks [He Ht] Hall IH]; intros s ids Hs.
  - exists s. simpl. rewrite app_nil_r. split_and!; try done.
    intros _ task Hin. by apply elem_of_nil in Hin.
  - rewrite addTasks_cons. subst e.
    rewrite (addTask_known _ _ _ Hs). simpl.
    destruct (IH (<[rd_taskId task := ItemTask task]>
                    (<[rd_executionId task := ItemList (ids ++ [rd_taskId task])]> s))
                 (ids ++ [rd_taskId task])) as (s' & Hadd & Hidx & Hframe & Hget).
    { rewrite lookup_insert_ne by done. apply lookup_insert_eq. }
    exists s'. split_and!.
    + exact Hadd.
    + by rewrite Hidx, <- app_assoc.
    + intros k Hk Hn. apply not_elem_of_cons in Hn as [Hk' Hn].
      rewrite Hframe by done. by rewrite !lookup_insert_ne.
    + intros Hnd x Hin. apply NoDup_cons in Hnd as [Hfresh Hnd].
      apply elem_of_cons in Hin as [->|Hin]; [|by apply Hget].
      rewrite Hframe by done. apply lookup_insert_eq.
Qed.

(** X16: the index of an instance lists its task ids in recording order.
    Start from a storage with no index for the instance and an intact
    instance list, and record tasks of that instance one after the other
    (task ids different from the execution id): every [addTask] succeeds,
    [getExecutionTasks] then returns exactly the task ids in the order
    recorded, and, if the ids are pairwise distinct, every record can be
    read back with [getTask]. *)
Theorem addTasks_index_in_order (e : string) (task : RecorderData)
    (tasks : list RecorderData) (s : storage) (instance : list string) :
  tasks_of e (task :: tasks) →
  getExecutionTasks e s = None →
  orEmpty (getItem LOGICFLOW_ENGINE_INSTANCES s) = Some instance →
  ∃ s', addTasks (task :: tasks) s = Some s'
        ∧ getExecutionTasks e s' = Some (ItemList (map rd_taskId (task :: tasks)))
        ∧ (NoDup (map rd_taskId (task :: tasks)) →
           ∀ x, x ∈ task :: tasks → getTask (rd_taskId x) s' = Some (ItemTask x)).
Proof.
  unfold getExecutionTasks, getTask, getItem.
  intros Hall He Hi. apply Forall_cons in Hall as [[Hx Ht] Hall]. subst e.
  rewrite addTasks_cons, (addTask_fresh _ _ _ He Hi). simpl.
  destruct (addTasks_known (rd_executionId task) tasks
              (<[rd_taskId task := ItemTask task]>
                 (<[rd_executionId task := ItemList [rd_taskId task]]>
                    (<[LOGICFLOW_ENGINE_INSTANCES
                       := ItemList (instance ++ [rd_executionId task])]> s)))
              [rd_taskId task] Hall) as (s' & Hadd & Hidx & Hframe & Hget).
  { rewrite lookup_insert_ne by done. apply lookup_insert_eq. }
  exists s'. split_and!; [done|done|].
  intros Hnd x Hin. apply NoDup_cons in Hnd as [Hfresh Hnd].
  apply elem_of_cons in Hin as [->|Hin]; [|by apply Hget].
  rewrite Hframe by done. apply lookup_insert_eq.
Qed.

(** ** Recording without awaiting *)

(** X17: two [addTask] calls for a new instance that overlap (the second is
    called before the first has resumed from its [await]) lose an index
    entry.  Both calls find no index; the second write replaces the index
    of the first, so afterwards the index lists only the second task, the
    instance is entered in the instance list twice, and the first record
    is stored but no longer indexed.  Awaited one after the other, the same
    two calls index both tasks and enter the instance once. *)
Theorem overlapping_addTask_loses_index_entry (task1 task2 : RecorderData)
    (s : storage) (instance : list string) :
  let e := rd_executionId task1 in
  rd_executionId task2 = e →
  getExecutionTasks e s = None →
  orEmpty (getItem LOGICFLOW_ENGINE_INSTANCES s) = Some instance →
  e ≠ LOGICFLOW_ENGINE_INSTANCES →
  rd_taskId task1 ≠ LOGICFLOW_ENGINE_INSTANCES →
  rd_taskId task2 ≠ LOGICFLOW_ENGINE_INSTANCES →
  rd_taskId task1 ≠ e → rd_taskId task2 ≠ e →
  rd_taskId task1 ≠ rd_taskId task2 →
  (∃ s', addTask_overlapped task1 task2 s = Some s'
         ∧ getExecutionTasks e s' = Some (ItemList [rd_taskId task2])
         ∧ getItem LOGICFLOW_ENGINE_INSTANCES s' = Some (ItemList (instance ++ [e; e]))
         ∧ getTask (rd_taskId task1) s' = Some (ItemTask task1)
         ∧ getTask (rd_taskId task2) s' = Some (ItemTask task2))
  ∧ (∃ s', addTasks [task1; task2] s = Some s'
           ∧ getExecutionTasks e s' = Some (ItemList [rd_taskId task1; rd_taskId task2])
           ∧ getItem LOGICFLOW_ENGINE_INSTANCES s' = Some (ItemList (instance ++ [e]))).
Proof.
  intros e He2 He Hi Hx H1 H2 H1e H2e H12.
  unfold getExecutionTasks, getTask, getItem in *. split.
  - unfold addTask_overlapped, getExecutionTasks, getItem. rewrite He2. fold e.
    rewrite He. unfold addTask_settled, getItem, setItem. rewrite Hi. simpl.
    rewrite He2. fold e.
    rewrite (lookup_insert_ne _ (rd_taskId task1)) by done.
    rewrite (lookup_insert_ne _ e) by done.
    rewrite lookup_insert_eq. simpl.
    eexists. split; [reflexivity|]. split_and!.
    + rewrite lookup_insert_ne by done. apply lookup_insert_eq.
    + rewrite !(lookup_insert_ne _ _ LOGICFLOW_ENGINE_INSTANCES) by done.
      rewrite lookup_insert_eq. by rewrite <- app_assoc.
    + rewrite (lookup_insert_ne _ (rd_taskId task2)) by done.
      rewrite (lookup_insert_ne _ e) by done.
      rewrite (lookup_insert_ne _ LOGICFLOW_ENGINE_INSTANCES) by done.
      apply lookup_insert_eq.
    + apply lookup_insert_eq.
  - rewrite addTasks_cons, (addTask_fresh task1 s instance He Hi). simpl.
    rewrite addTasks_cons. fold e.
    rewrite (addTask_known task2 _ [rd_taskId task1]).
    + simpl. eexists. split; [reflexivity|]. rewrite He2. fold e. split.
      * rewrite lookup_insert_ne by done. apply lookup_insert_eq.
      * rewrite !(lookup_insert_ne _ _ LOGICFLOW_ENGINE_INSTANCES) by done.
        apply lookup_insert_eq.
    + rewrite He2. fold e. rewrite lookup_insert_ne by done. apply lookup_insert_eq.
Qed.

(** ** Clearing *)

(** X18: [clear] throws exactly when the key of the instance list holds a
    task record; on every other storage, also an empty one, it succeeds. *)
Theorem clear_throws_iff (s : storage) :
  clear s = None ↔ ∃ r, getItem LOGICFLOW_ENGINE_INSTANCES s = Some (ItemTask r).
Proof.
  unfold getItem. split.
  - intros Hn. destruct (s !! LOGICFLOW_ENGINE_INSTANCES) as [[instance|r]|] eqn:Hi.
    + rewrite (RecorderFacts.clear_unfold instance) in Hn; [done|].
      unfold getItem. by rewrite Hi.
    + eauto.
    + rewrite (RecorderFacts.clear_unfold []) in Hn; [done|].
      unfold getItem. by rewrite Hi.
  - intros [r Hi]. unfold clear, getItem. by rewrite Hi.
Qed.

(** X19: [clear] is idempotent: clearing a storage that has just been
    cleared succeeds and changes nothing; the instance list and the index
    of every instance that was listed are absent afterwards. *)
Theorem clear_is_idempotent (s s' : storage) :
  clear s = Some s' →
  clear s' = Some s'
  ∧ getItem LOGICFLOW_ENGINE_INSTANCES s' = None
  ∧ (∀ instance e, getItem LOGICFLOW_ENGINE_INSTANCES s = Some (ItemList instance) →
                   e ∈ instance → getExecutionTasks e s' = None).
Proof.
  intros Hc. unfold getExecutionTasks, getItem.
  assert (Hex : ∃ instance, orEmpty (getItem LOGICFLOW_ENGINE_INSTANCES s) = Some instance).
  { unfold clear in Hc.
    destruct (orEmpty (getItem LOGICFLOW_ENGINE_INSTANCES s)); [eauto|done]. }
  destruct Hex as [instance Hi].
  rewrite (RecorderFacts.clear_unfold instance s Hi) in Hc. injection Hc as <-.
  assert (Hgone : ∀ (keys : list string) (m : storage) (k : string),
             k ∈ keys → foldl (λ acc key, delete key acc) m keys !! k = None).
  { clear. intros keys. induction keys as [|key keys IH]; intros m k Hin.
    - by apply elem_of_nil in Hin.
    - simpl. destruct (decide (k ∈ keys)) as [Hk|Hk]; [by apply IH|].
      apply elem_of_cons in Hin as [->|Hin]; [|done].
      rewrite RecorderFacts.lookup_delete_all by done. apply lookup_delete_eq. }
  split_and!.
  - rewrite (RecorderFacts.clear_unfold []).
    + simpl. f_equal. apply delete_id, lookup_delete_eq.
    + unfold getItem. by rewrite lookup_delete_eq.
  - apply lookup_delete_eq.
  - intros instance' e Hl Hin. unfold getItem in Hi. rewrite Hl in Hi.
    injection Hi as <-.
    destruct (decide (e = LOGICFLOW_ENGINE_INSTANCES)) as [->|Hne].
    + apply lookup_delete_eq.
    + rewrite lookup_delete_ne by done. by apply Hgone.
Qed.

(** ** Closed instances *)

Lemma addTask_round_trip_witness :
  getTask "task" storedOne = Some (ItemTask taskRecord).
Proof.
  exact (proj1 (addTask_round_trip taskRecord ∅ storedOne eq_refl)).
Defined.

Lemma addTask_rejects_task_id_as_execution_id_witness :
  addTask recordClash storedOne = None.
Proof.
  exact (addTask_rejects_task_id_as_execution_id taskRecord recordClash ∅ storedOne
           eq_refl eq_refl).
Defined.

Lemma addTask_registers_instance_once_witness :
  ∃ instance, orEmpty (getItem LOGICFLOW_ENGINE_INSTANCES ∅) = Some instance
              ∧ getItem LOGICFLOW_ENGINE_INSTANCES storedOne
                = Some (ItemList (instance ++ ["e1"])).
Proof.
  refine (proj2 (addTask_registers_instance_once taskRecord ∅ storedOne eq_refl _ _)
            eq_refl); discriminate.
Defined.

Lemma addTasks_index_in_order_witness :
  ∃ s', addTasks [taskRecord; recordB] ∅ = Some s'
        ∧ getExecutionTasks "e1" s' = Some (ItemList ["task"; "task2"])
        ∧ (NoDup ["task"; "task2"] →
           ∀ x, x ∈ [taskRecord; recordB] → getTask (rd_taskId x) s' = Some (ItemTask x)).
Proof.
  refine (addTasks_index_in_order "e1" taskRecord [recordB] ∅ [] _ eq_refl eq_refl).
  repeat constructor; discriminate.
Defined.

Lemma overlapping_addTask_loses_index_entry_witness :
  ∃ s', addTask_overlapped taskRecord recordB ∅ = Some s'
        ∧ getExecutionTasks "e1" s' = Some (ItemList ["task2"])
        ∧ getItem LOGICFLOW_ENGINE_INSTANCES s' = Some (ItemList ["e1"; "e1"])
        ∧ getTask "task" s' = Some (ItemTask taskRecord)
        ∧ getTask "task2" s' = Some (ItemTask recordB).
Proof.
  refine (proj1 (overlapping_addTask_loses_index_entry taskRecord recordB ∅ []
                   eq_refl eq_refl eq_refl _ _ _ _ _ _)); discriminate.
Defined.

Lemma clear_is_idempotent_witness :
  clear clearedOne = Some clearedOne.
Proof.
  refine (proj1 (clear_is_idempotent storedOne clearedOne _)).
  vm_compute. reflexivity.
Defined.

End RecorderExtra.
